(** * Dirty-diff gutter decorations

    A shallow embedding of
    [src/vs/workbench/parts/scm/electron-browser/dirtydiffDecorator.ts]:
    the pure mapper [changesToDecorations], the per-buffer coordinator
    [DirtyDiffModelDecorator] and the visibility tracker
    [DirtyDiffDecorator].

    Line numbers are JavaScript numbers holding integers; they are [Z] here.
    Objects that the code compares by identity carry a location. *)

From Stdlib Require Import ZArith Lia String.
From stdpp Require Import base option list functions gmap strings.

Set Default Proof Using "Type".

(** ** Data of [editorCommon] *)
Module common.

Record IChange := {
  originalStartLineNumber : Z;
  originalEndLineNumber : Z;
  modifiedStartLineNumber : Z;
  modifiedEndLineNumber : Z
}.

Record IRange := {
  startLineNumber : Z;
  startColumn : Z;
  endLineNumber : Z;
  endColumn : Z
}.

(** The four registered option objects, the static members of
    [DirtyDiffModelDecorator]. *)
Inductive ModelDecorationOptions :=
| MODIFIED_DECORATION_OPTIONS
| ADDED_DECORATION_OPTIONS
| DELETED_DECORATION_OPTIONS
| HIDDEN_DECORATION_OPTIONS.

Record IModelDeltaDecoration := {
  range : IRange;
  options : ModelDecorationOptions
}.

#[global] Instance IRange_eq_dec : EqDecision IRange.
Proof. solve_decision. Defined.
#[global] Instance ModelDecorationOptions_eq_dec : EqDecision ModelDecorationOptions.
Proof. solve_decision. Defined.
#[global] Instance IModelDeltaDecoration_eq_dec : EqDecision IModelDeltaDecoration.
Proof. solve_decision. Defined.

(** A text model is an object of the editor: the code holds references to
    it, compares them with [===] and reads the read-only [id] and [uri].
    A reference is the object's location [obj] with these two attributes;
    what changes over time (disposal, content, decorations) is kept in the
    world, under the location. *)
Record IModel := {
  obj : nat;
  id : string;
  uri : option string
}.

#[global] Instance IModel_eq_dec : EqDecision IModel.
Proof. solve_decision. Defined.

End common.
Import common.

(** ** Text models *)

Abbreviation URI := string (only parsing).
Abbreviation DecorationId := nat (only parsing).

(** What changes in a text model over time. *)
Record ModelState := {
  isDisposed : bool;
  getValueLength : Z;
  getAllDecorations : list (DecorationId * IModelDeltaDecoration);
  lastDecorationId : nat
}.

(** The result of [textModelResolverService.createModelReference]:
    [ref.object.textEditorModel] is the loaded model. *)
Record ModelReference := {
  textEditorModel : IModel
}.

#[global] Instance ModelReference_eq_dec : EqDecision ModelReference.
Proof. solve_decision. Defined.

(** What ends up in a [toDispose] array. *)
Inductive IDisposable :=
| onDidChangeContent (model : IModel)
| onDidChangeProvider
| onEditorsChanged_listener
| reference (ref : ModelReference).

#[global] Instance IDisposable_eq_dec : EqDecision IDisposable.
Proof. solve_decision. Defined.

(** ** Calls to the collaborators

    Every call the code makes to a service or to a model is appended to a
    log, in the order of the calls. *)
Inductive Call :=
| deltaDecorations_call (model : IModel)
    (oldDecorations : option (list DecorationId))
    (newDecorations : list IModelDeltaDecoration)
| getOriginalResource_call (provider : nat) (resource : URI)
| createModelReference_call (resource : URI)
| computeDirtyDiff_call (original : URI) (modified : option URI)
    (ignoreTrimWhitespace : bool)
| dispose_call (d : IDisposable).

#[global] Instance Call_eq_dec : EqDecision Call.
Proof. solve_decision. Defined.

Definition is_deltaDecorations (c : Call) : bool :=
  match c with deltaDecorations_call _ _ _ => true | _ => false end.

Definition is_getOriginalResource (c : Call) : bool :=
  match c with getOriginalResource_call _ _ => true | _ => false end.

Definition is_computeDirtyDiff (c : Call) : bool :=
  match c with computeDirtyDiff_call _ _ _ => true | _ => false end.

(** ** The world around the decorators *)
Record World := {
  (** state of the text model at a location *)
  textModels : nat → ModelState;
  (** [scmService.activeProvider], a provider object or [null] *)
  activeProvider : option nat;
  (** [getConfiguration('editor').showChangesInGutter] *)
  showChangesInGutter : bool;
  (** number of promises handed out by providers so far *)
  promises : nat;
  calls : list Call
}.

Definition set_textModels (f : nat → ModelState) (w : World) : World :=
  {| textModels := f; activeProvider := activeProvider w;
     showChangesInGutter := showChangesInGutter w;
     promises := promises w; calls := calls w |}.

Definition set_activeProvider (p : option nat) (w : World) : World :=
  {| textModels := textModels w; activeProvider := p;
     showChangesInGutter := showChangesInGutter w;
     promises := promises w; calls := calls w |}.

Definition set_showChangesInGutter (b : bool) (w : World) : World :=
  {| textModels := textModels w; activeProvider := activeProvider w;
     showChangesInGutter := b;
     promises := promises w; calls := calls w |}.

Definition set_promises (n : nat) (w : World) : World :=
  {| textModels := textModels w; activeProvider := activeProvider w;
     showChangesInGutter := showChangesInGutter w;
     promises := n; calls := calls w |}.

Definition log (c : Call) (w : World) : World :=
  {| textModels := textModels w; activeProvider := activeProvider w;
     showChangesInGutter := showChangesInGutter w;
     promises := promises w; calls := calls w ++ [c] |}.

(** ** Computations that change a state and may throw

    A JavaScript exception leaves the assignments made before it in place,
    so the state is returned in both cases. *)
Inductive Res (A : Type) :=
| Ok (a : A)
| Throw (e : string).
Arguments Ok {A} a.
Arguments Throw {A} e.

Definition M (S A : Type) : Type := S → Res A * S.

Definition ret {S A} (a : A) : M S A := λ s, (Ok a, s).

Definition bind {S A B} (m : M S A) (f : A → M S B) : M S B :=
  λ s, match m s with
       | (Ok a, s') => f a s'
       | (Throw e, s') => (Throw e, s')
       end.

Definition throw {S A} (e : string) : M S A := λ s, (Throw e, s).

Definition get {S} : M S S := λ s, (Ok s, s).

Definition modify {S} (f : S → S) : M S unit := λ s, (Ok tt, f s).

Notation "'do' x <- m ;; k" := (bind m (λ x, k))
  (at level 10, x name, m at level 99, k at level 200,
   format "'[v' 'do'  x  <-  m  ;; '/' k ']'").
Notation "'run' m ;; k" := (bind m (λ _, k))
  (at level 10, m at level 99, k at level 200,
   format "'[v' 'run'  m  ;; '/' k ']'").

(** [array.forEach(f)] *)
Fixpoint forEach {S A} (f : A → M S unit) (l : list A) : M S unit :=
  match l with
  | [] => ret tt
  | x :: l' => run f x ;; forEach f l'
  end.

(** The state a computation leaves behind; an exception not caught by the
    code ends the current turn of the event loop and nothing else. *)
Definition exec {S A} (m : M S A) (s : S) : S := (m s).2.

(** ** Promises

    A promise settles once, with a value or with an error. *)
Inductive Outcome (A : Type) :=
| Completed (a : A)
| Failed (e : string).
Arguments Completed {A} a.
Arguments Failed {A} e.

(** [promise.then(f)] with no error callback, at the time [promise] settles
    with [o]: [f] runs on a value, an error passes [f] by, and an exception
    thrown by [f] becomes the error of the resulting promise. *)
Definition then_ {S A B} (o : Outcome A) (f : A → M S (Outcome B))
  : M S (Outcome B) :=
  match o with
  | Failed e => ret (Failed e)
  | Completed a =>
      λ s, match f a s with
           | (Ok r, s') => (Ok r, s')
           | (Throw e, s') => (Ok (Failed e), s')
           end
  end.

(** The promises [getOriginalURIPromise] can return, by identity. *)
Inductive TPromise :=
| as_ (value : option URI)      (* [winjs.TPromise.as(value)] *)
| chain (n : nat)               (* [provider.getOriginalResource(..).then(..)],
                                   on the [n]-th promise of a provider *)
| always (promise : TPromise).  (* [always(promise, f)] *)

#[global] Instance TPromise_eq_dec : EqDecision TPromise.
Proof. solve_decision. Defined.

(** The promises the continuation in [diff] can return. *)
Inductive DiffPromise :=
| as_changes (value : list IChange)        (* [winjs.TPromise.as([])] *)
| computeDirtyDiff (original : URI) (modified : option URI).

(** What the callback on [getOriginalResource] returns. *)
Inductive OriginalUri :=
| no_original                              (* [return null] *)
| createModelReference (resource : URI).   (* the promise of the loaded model *)

(** Modelled from the spec: [ThrottledDelayer] of [vs/base/common/async],
    the DiffThrottle of the specification. Only what the decorator relies on
    is kept: [trigger(operation)] schedules the operation, and [cancel()]
    aborts an execution that is pending and has not started. *)
Record ThrottledDelayer := {
  defaultDelay : Z;
  scheduled : bool
}.

Definition trigger (d : ThrottledDelayer) : ThrottledDelayer :=
  {| defaultDelay := defaultDelay d; scheduled := true |}.

Definition cancel (d : ThrottledDelayer) : ThrottledDelayer :=
  {| defaultDelay := defaultDelay d; scheduled := false |}.

(** The delayer starts the scheduled operation: nothing is pending any
    more. *)
Definition start (d : ThrottledDelayer) : ThrottledDelayer :=
  {| defaultDelay := defaultDelay d; scheduled := false |}.

(** Running a computation on the world from a state that pairs the world
    with an object. *)
Definition on_world {T A} (m : M World A) : M (World * T) A :=
  λ s, let '(r, w') := m s.1 in (r, (w', s.2)).

Definition call {T} (c : Call) : M (World * T) unit :=
  on_world (modify (log c)).

(** Modelled from the spec: the decoration API of a text model,
    [replaceDecorations(oldIds, newSpecs) -> newIds]: the decorations named
    by [oldDecorations] leave the model, one decoration per entry of
    [newDecorations] enters it under a new id, and the new ids are returned
    in order. The least is assumed of the model: it rejects the call once it
    is disposed, and a [null] id list is a type error. The call is logged
    before the model looks at it. *)
Definition deltaDecorations (model : IModel)
    (oldDecorations : option (list DecorationId))
    (newDecorations : list IModelDeltaDecoration)
  : M World (list DecorationId) :=
  run modify (log (deltaDecorations_call model oldDecorations newDecorations)) ;;
  do w <- get ;;
  let st := textModels w (obj model) in
  if isDisposed st then throw "Model is disposed!"
  else match oldDecorations with
       | None => throw "TypeError: oldDecorations is null"
       | Some old =>
           let ids := seq (S (lastDecorationId st)) (length newDecorations) in
           let kept := filter (λ p, p.1 ∉ old) (getAllDecorations st) in
           run modify (set_textModels
                 (<[obj model :=
                      {| isDisposed := isDisposed st;
                         getValueLength := getValueLength st;
                         getAllDecorations := kept ++ zip ids newDecorations;
                         lastDecorationId :=
                           lastDecorationId st + length newDecorations |}]>
                    (textModels w))) ;;
           ret ids
       end.

(** Modelled from the spec: [dispose(array)] of [vs/base/common/lifecycle]
    releases every handle of the array, in order, and returns the empty
    array. *)
Definition lifecycle_dispose (disposables : list IDisposable)
  : M World (list IDisposable) :=
  run forEach (λ d, modify (log (dispose_call d))) disposables ;;
  ret [].

(** ** [class DirtyDiffModelDecorator] *)
Module DirtyDiffModelDecorator.

(** The fields of an instance; [null] and [undefined] are [None]. *)
Record t := {
  model : option IModel;
  uri : URI;
  decorations : option (list DecorationId);
  baselineModel : option IModel;
  diffDelayer : option ThrottledDelayer;
  _originalURIPromise : option TPromise;
  toDispose : list IDisposable
}.

Definition set_model (v : option IModel) (c : t) : t :=
  {| model := v; uri := uri c; decorations := decorations c;
     baselineModel := baselineModel c; diffDelayer := diffDelayer c;
     _originalURIPromise := _originalURIPromise c;
     toDispose := toDispose c |}.

Definition set_decorations (v : option (list DecorationId)) (c : t) : t :=
  {| model := model c; uri := uri c; decorations := v;
     baselineModel := baselineModel c; diffDelayer := diffDelayer c;
     _originalURIPromise := _originalURIPromise c;
     toDispose := toDispose c |}.

Definition set_baselineModel (v : option IModel) (c : t) : t :=
  {| model := model c; uri := uri c; decorations := decorations c;
     baselineModel := v; diffDelayer := diffDelayer c;
     _originalURIPromise := _originalURIPromise c;
     toDispose := toDispose c |}.

Definition set_diffDelayer (v : option ThrottledDelayer) (c : t) : t :=
  {| model := model c; uri := uri c; decorations := decorations c;
     baselineModel := baselineModel c; diffDelayer := v;
     _originalURIPromise := _originalURIPromise c;
     toDispose := toDispose c |}.

Definition set_originalURIPromise (v : option TPromise) (c : t) : t :=
  {| model := model c; uri := uri c; decorations := decorations c;
     baselineModel := baselineModel c; diffDelayer := diffDelayer c;
     _originalURIPromise := v;
     toDispose := toDispose c |}.

Definition set_toDispose (v : list IDisposable) (c : t) : t :=
  {| model := model c; uri := uri c; decorations := decorations c;
     baselineModel := baselineModel c; diffDelayer := diffDelayer c;
     _originalURIPromise := _originalURIPromise c;
     toDispose := v |}.

(** A method runs on the world and on [this]. *)
Definition this : M (World * t) t := λ s, (Ok s.2, s).
Definition world : M (World * t) World := λ s, (Ok s.1, s).
Definition assign (f : t → t) : M (World * t) unit :=
  modify (λ s, (s.1, f s.2)).

(** [this.model.isDisposed()] and the like, for a reference in hand. *)
Definition disposed (w : World) (m : IModel) : bool :=
  isDisposed (textModels w (obj m)).

(** *** [changesToDecorations] *)

(** [a || b] on numbers: [0] is the falsy integer. *)
Definition js_or (a b : Z) : Z := if decide (a = 0%Z) then b else a.

(** The arrow function handed to [diff.map]. *)
Definition changeToDecoration (hidden : bool) (change : IChange)
  : IModelDeltaDecoration :=
  if hidden then
    {| range := {| startLineNumber := 0; startColumn := 1;
                   endLineNumber := 0; endColumn := 0 |};
       options := HIDDEN_DECORATION_OPTIONS |}
  else
    let startLine := modifiedStartLineNumber change in
    let endLine := js_or (modifiedEndLineNumber change) startLine in
    (* Added *)
    if decide (originalEndLineNumber change = 0%Z) then
      {| range := {| startLineNumber := startLine; startColumn := 1;
                     endLineNumber := endLine; endColumn := 1 |};
         options := ADDED_DECORATION_OPTIONS |}
    (* Removed *)
    else if decide (modifiedEndLineNumber change = 0%Z) then
      {| range := {| startLineNumber := startLine; startColumn := 1;
                     endLineNumber := startLine; endColumn := 1 |};
         options := DELETED_DECORATION_OPTIONS |}
    (* Modified *)
    else
      {| range := {| startLineNumber := startLine; startColumn := 1;
                     endLineNumber := endLine; endColumn := 1 |};
         options := MODIFIED_DECORATION_OPTIONS |}.

Definition changesToDecorations (diff : list IChange) (hidden : bool)
  : list IModelDeltaDecoration :=
  changeToDecoration hidden <$> diff.

(** *** [triggerDiff]

    The method hands [() => this.diff()] to the delayer and chains the
    completion handler [triggerDiff_then] on the promise it gets back; the
    promise it returns is dropped by every caller. *)
Definition triggerDiff : M (World * t) unit :=
  do c <- this ;;
  match diffDelayer c with
  | None => ret tt
  | Some d => assign (set_diffDelayer (Some (trigger d)))
  end.

(** The completion handler [(diff: common.IChange[]) => {...}]; its
    argument is [None] for [null] or [undefined]. *)
Definition triggerDiff_then (diff : option (list IChange))
  : M (World * t) (option (list DecorationId)) :=
  do c <- this ;;
  do w <- world ;;
  match model c, baselineModel c with
  | Some m, Some b =>
      if disposed w m || disposed w b then
        ret None (* disposed *)
      else
        let diff :=
          if decide (getValueLength (textModels w (obj b)) = 0%Z)
          then Some [] else diff in
        (* check whether decorations should be hidden *)
        let hiddenDecorations := negb (showChangesInGutter w) in
        do ids <- on_world
                    (deltaDecorations m (decorations c)
                       (changesToDecorations (default [] diff)
                          hiddenDecorations)) ;;
        run assign (set_decorations (Some ids)) ;;
        ret (Some ids)
  | _, _ => ret None (* disposed *)
  end.

(** *** [getOriginalURIPromise] *)
Definition getOriginalURIPromise : M (World * t) TPromise :=
  do c <- this ;;
  match _originalURIPromise c with
  | Some p => ret p
  | None =>
      do w <- world ;;
      match activeProvider w with
      | None => ret (as_ None)
      | Some provider =>
          let n := promises w in
          run call (getOriginalResource_call provider (uri c)) ;;
          run on_world (modify (set_promises (S n))) ;;
          run assign (set_originalURIPromise (Some (chain n))) ;;
          ret (always (chain n))
      end
  end.

(** The callback [originalUri => {...}] on the provider's promise. *)
Definition getOriginalResource_then (originalUri : option URI)
  : M (World * t) OriginalUri :=
  match originalUri with
  | None => ret no_original
  | Some u =>
      run call (createModelReference_call u) ;;
      ret (createModelReference u)
  end.

(** The callback [ref => {...}] on the promise of the model reference. *)
Definition createModelReference_then (originalUri : URI)
    (ref : ModelReference) : M (World * t) URI :=
  run assign (set_baselineModel (Some (textEditorModel ref))) ;;
  run assign (λ c, set_toDispose (toDispose c ++ [reference ref]) c) ;;
  run assign (λ c, set_toDispose
                (toDispose c ++ [onDidChangeContent (textEditorModel ref)])
                c) ;;
  ret originalUri.

(** The callback [() => { this._originalURIPromise = null; }] given to
    [always]. Modelled from the spec: [always] of [vs/base/common/async]
    runs it when the promise settles, with a value or with an error, and
    the promise [always] returns settles as the given one does. *)
Definition always_callback : M (World * t) unit :=
  assign (set_originalURIPromise None).

(** *** [diff] *)
Definition diff : M (World * t) TPromise := getOriginalURIPromise.

(** The continuation [originalURI => {...}] in [diff]. *)
Definition diff_then (originalURI : option URI)
  : M (World * t) DiffPromise :=
  do c <- this ;;
  do w <- world ;;
  match model c, originalURI with
  | Some m, Some original =>
      if disposed w m then ret (as_changes []) (* disposed *)
      else
        run call (computeDirtyDiff_call original (common.uri m) true) ;;
        ret (computeDirtyDiff original (common.uri m))
  | _, _ => ret (as_changes []) (* disposed *)
  end.

(** *** [dispose] *)
Definition dispose : M (World * t) unit :=
  do c <- this ;;
  do emptied <- on_world (lifecycle_dispose (toDispose c)) ;;
  run assign (set_toDispose emptied) ;;
  do c <- this ;;
  do w <- world ;;
  run match model c with
      | Some m =>
          if negb (disposed w m)
          then run on_world (deltaDecorations m (decorations c) []) ;; ret tt
          else ret tt
      | None => ret tt
      end ;;
  run assign (set_model None) ;;
  run assign (set_baselineModel None) ;;
  run assign (set_decorations None) ;;
  do c <- this ;;
  match diffDelayer c with
  | Some d =>
      run assign (set_diffDelayer (Some (cancel d))) ;;
      assign (set_diffDelayer None)
  | None => ret tt
  end.

(** *** The constructor *)
Definition constructor (model : IModel) (uri : URI) : M World t :=
  λ w,
    let c := {| model := Some model; uri := uri;
                decorations := Some [];
                baselineModel := None;
                diffDelayer :=
                  Some {| defaultDelay := 200; scheduled := false |};
                _originalURIPromise := None;
                toDispose := [] |} in
    let body : M (World * t) unit :=
      run triggerDiff ;;
      run assign (λ c, set_toDispose
                    (toDispose c ++ [onDidChangeContent model]) c) ;;
      assign (λ c, set_toDispose (toDispose c ++ [onDidChangeProvider]) c)
    in
    let '(r, (w', c')) := body (w, c) in
    (match r with Ok _ => Ok c' | Throw e => Throw e end, w').

End DirtyDiffModelDecorator.

(** ** [class DirtyDiffDecorator] *)
Module DirtyDiffDecorator.

(** What [e.getControl()] returns: a [widget.CodeEditor] with its
    [getModel()], or something that is no instance of it ([null]
    included). *)
Inductive Control :=
| CodeEditor (getModel : option IModel)
| other_control.

Record IEditor := {
  getControl : Control
}.

(** The entries [{ model: m, uri: m.uri }]. *)
Record VisibleModel := {
  model : IModel;
  uri : URI
}.

(** The fields of the tracker while it is in use ([dispose] is what sets
    [models] and [decorators] to [null]). [decorators] is the object created
    by [Object.create(null)]: it maps a model id to a reference to an
    instance of [DirtyDiffModelDecorator]. *)
Record t := {
  models : list IModel;
  decorators : gmap string nat;
  toDispose : list IDisposable
}.

Definition set_models (v : list IModel) (self : t) : t :=
  {| models := v; decorators := decorators self;
     toDispose := toDispose self |}.

Definition set_decorators (v : gmap string nat) (self : t) : t :=
  {| models := models self; decorators := v;
     toDispose := toDispose self |}.

(** The tracker runs in the world, with the instances that
    [instantiationService.createInstance] has made so far, by reference. *)
Record Workbench := {
  world : World;
  instances : gmap nat DirtyDiffModelDecorator.t
}.

Definition this : M (Workbench * t) t := λ s, (Ok s.2, s).
Definition assign (f : t → t) : M (Workbench * t) unit :=
  modify (λ s, (s.1, f s.2)).

(** A method call [instance.method()] through a reference. *)
Definition invoke {A} (i : nat) (method : M (World * DirtyDiffModelDecorator.t) A)
  : M (Workbench * t) A :=
  λ s,
    match instances s.1 !! i with
    | None => (Throw "dangling reference", s)
    | Some c =>
        let '(r, (w', c')) := method (world s.1, c) in
        (r, ({| world := w'; instances := <[i := c']> (instances s.1) |}, s.2))
    end.

(** [instantiationService.createInstance(DirtyDiffModelDecorator, model, uri)]:
    a new object, built by the constructor. *)
Definition createInstance (model : IModel) (uri : URI)
  : M (Workbench * t) nat :=
  λ s,
    let i := fresh (dom (instances s.1)) in
    match DirtyDiffModelDecorator.constructor model uri (world s.1) with
    | (Ok c, w') =>
        (Ok i, ({| world := w'; instances := <[i := c]> (instances s.1) |}, s.2))
    | (Throw e, w') =>
        (Throw e, ({| world := w'; instances := instances s.1 |}, s.2))
    end.

(** [a.indexOf(x, fromIndex)]: the first index at or after [fromIndex] that
    holds [x], or [-1]. *)
Definition indexOf {A} `{EqDecision A} (a : list A) (x : A) (fromIndex : nat)
  : Z :=
  match list_find (λ y, y = x) (drop fromIndex a) with
  | Some (j, _) => Z.of_nat (fromIndex + j)
  | None => (-1)%Z
  end.

(** [a.filter((x, i, a) => f(x, i, a))] *)
Fixpoint filter_from {A} (f : A → nat → bool) (i : nat) (l : list A)
  : list A :=
  match l with
  | [] => []
  | x :: l' =>
      if f x i then x :: filter_from f (S i) l' else filter_from f (S i) l'
  end.

Definition array_filter {A} (f : A → nat → list A → bool) (a : list A)
  : list A :=
  filter_from (λ x i, f x i a) 0 a.

Definition isCodeEditor (c : Control) : bool :=
  match c with CodeEditor _ => true | other_control => false end.

(** [(<widget.CodeEditor>e).getModel()] *)
Definition getModel (c : Control) : option IModel :=
  match c with CodeEditor m => m | other_control => None end.

(** [!!m && !!m.uri] *)
Definition has_uri (m : option IModel) : bool :=
  match m with
  | Some m => bool_decide (is_Some (common.uri m))
  | None => false
  end.

(** The chain on [this.editorService.getVisibleEditors()] that computes
    [models]. The last [map] meets only models that passed the filter, so
    [m] and [m.uri] are there. *)
Definition visibleModels (editors : list IEditor) : list VisibleModel :=
  let controls := getControl <$> editors in
  let codeEditors := base.filter (λ c, isCodeEditor c = true) controls in
  let ms := getModel <$> codeEditors in
  (* remove nulls and duplicates *)
  let ms :=
    array_filter
      (λ m i a, has_uri m && bool_decide (indexOf a m (i + 1) = (-1)%Z)) ms in
  (* get the associated resource *)
  omap (λ om, m ← om; u ← common.uri m; Some {| model := m; uri := u |}) ms.

Definition onModelVisible (model : IModel) (uri : URI)
  : M (Workbench * t) unit :=
  do i <- createInstance model uri ;;
  assign (λ self, set_decorators (<[id model := i]> (decorators self)) self).

Definition onModelInvisible (model : IModel) : M (Workbench * t) unit :=
  do self <- this ;;
  match decorators self !! id model with
  | None => throw "TypeError: Cannot read property 'dispose' of undefined"
  | Some i =>
      run invoke i DirtyDiffModelDecorator.dispose ;;
      assign (λ self, set_decorators (delete (id model) (decorators self)) self)
  end.

(** [onEditorsChanged], on the list [getVisibleEditors()] returns. *)
Definition onEditorsChanged (editors : list IEditor)
  : M (Workbench * t) unit :=
  let models' := visibleModels editors in
  do self <- this ;;
  let newModels :=
    base.filter (λ p, Forall (λ m, model p ≠ m) (models self)) models' in
  let oldModels :=
    base.filter (λ m, Forall (λ p, model p ≠ m) models') (models self) in
  run forEach (λ p, onModelVisible (model p) (uri p)) newModels ;;
  run forEach onModelInvisible oldModels ;;
  assign (set_models (model <$> models')).

(** The tracker as its field initialisers leave it. *)
Definition initial : t :=
  {| models := []; decorators := ∅; toDispose := [onEditorsChanged_listener] |}.

End DirtyDiffDecorator.

(** * The specification's vocabulary

    ** Decorations *)

Inductive Kind := Added | Removed | Modified | Hidden.

Definition kind (d : IModelDeltaDecoration) : Kind :=
  match options d with
  | ADDED_DECORATION_OPTIONS => Added
  | DELETED_DECORATION_OPTIONS => Removed
  | MODIFIED_DECORATION_OPTIONS => Modified
  | HIDDEN_DECORATION_OPTIONS => Hidden
  end.

(** The decoration runs from line [s] to line [e]. *)
Definition spans (d : IModelDeltaDecoration) (s e : Z) : Prop :=
  startLineNumber (range d) = s ∧ endLineNumber (range d) = e.

(** A column [c] lies inside the range when the range is read on one line. *)
Definition covers_column (r : IRange) (c : Z) : Prop :=
  (startColumn r ≤ c < endColumn r)%Z.

(** Classification as the specification words it: three unordered rules. *)
Definition classified_by_sentinels (change : IChange)
    (d : IModelDeltaDecoration) : Prop :=
  (originalEndLineNumber change = 0%Z →
     kind d = Added ∧
     spans d (modifiedStartLineNumber change)
             (DirtyDiffModelDecorator.js_or (modifiedEndLineNumber change)
                    (modifiedStartLineNumber change))) ∧
  (modifiedEndLineNumber change = 0%Z →
     kind d = Removed ∧
     spans d (modifiedStartLineNumber change) (modifiedStartLineNumber change)) ∧
  (originalEndLineNumber change ≠ 0%Z → modifiedEndLineNumber change ≠ 0%Z →
     kind d = Modified ∧
     spans d (modifiedStartLineNumber change) (modifiedEndLineNumber change)).

(** The same rules in the order the code tests them: the Removed rule only
    applies to a change that is not an insertion. *)
Definition classified_in_order (change : IChange)
    (d : IModelDeltaDecoration) : Prop :=
  (originalEndLineNumber change = 0%Z →
     kind d = Added ∧
     spans d (modifiedStartLineNumber change)
             (DirtyDiffModelDecorator.js_or (modifiedEndLineNumber change)
                    (modifiedStartLineNumber change))) ∧
  (originalEndLineNumber change ≠ 0%Z → modifiedEndLineNumber change = 0%Z →
     kind d = Removed ∧
     spans d (modifiedStartLineNumber change) (modifiedStartLineNumber change)) ∧
  (originalEndLineNumber change ≠ 0%Z → modifiedEndLineNumber change ≠ 0%Z →
     kind d = Modified ∧
     spans d (modifiedStartLineNumber change) (modifiedEndLineNumber change)).

(** Same length, and position [i] of the output comes from position [i] of
    the input. *)
Definition pointwise (R : IChange → IModelDeltaDecoration → Prop)
    (diff : list IChange) (out : list IModelDeltaDecoration) : Prop :=
  length out = length diff ∧
  ∀ (i : nat) change, diff !! i = Some change →
    ∃ d, out !! i = Some d ∧ R change d.

(** An insertion whose modified end line is also the sentinel. *)
Definition insertion_without_end : IChange :=
  {| originalStartLineNumber := 3; originalEndLineNumber := 0;
     modifiedStartLineNumber := 4; modifiedEndLineNumber := 0 |}.


(** ** The life of one decorator

    The asynchronous parts of the class are callbacks; what runs them, and
    when, is the editor. An event is one callback run to its end (the event
    loop runs one at a time), or a change of the surroundings. Events may
    come in any order and with any argument, which covers every order the
    promises and the delayer can produce. *)
Inductive Event :=
| triggers                                    (* a listener calls [triggerDiff()] *)
| delayer_runs                                (* the delayer starts the scheduled
                                                 [() => this.diff()] *)
| original_known (originalURI : option URI)   (* the continuation in [diff] *)
| diff_arrives (diff : option (list IChange)) (* the completion handler *)
| provider_answers (originalUri : option URI)
| reference_arrives (originalUri : URI) (ref : ModelReference)
| resolution_settles                          (* the callback of [always] *)
| disposes                                    (* [dispose()] *)
| model_disposed (o : nat)
| model_edited (o : nat) (length : Z)
| provider_changes (provider : option nat)
| setting_changes (show : bool).

Definition with_disposed (st : ModelState) : ModelState :=
  {| isDisposed := true; getValueLength := getValueLength st;
     getAllDecorations := getAllDecorations st;
     lastDecorationId := lastDecorationId st |}.

Definition with_length (n : Z) (st : ModelState) : ModelState :=
  {| isDisposed := isDisposed st; getValueLength := n;
     getAllDecorations := getAllDecorations st;
     lastDecorationId := lastDecorationId st |}.

Definition step (e : Event) (s : World * DirtyDiffModelDecorator.t)
  : World * DirtyDiffModelDecorator.t :=
  match e with
  | triggers => exec DirtyDiffModelDecorator.triggerDiff s
  | delayer_runs =>
      match DirtyDiffModelDecorator.diffDelayer s.2 with
      | Some d =>
          if scheduled d then
            exec DirtyDiffModelDecorator.diff
              (s.1, DirtyDiffModelDecorator.set_diffDelayer
                      (Some (start d)) s.2)
          else s
      | None => s
      end
  | original_known originalURI =>
      exec (DirtyDiffModelDecorator.diff_then originalURI) s
  | diff_arrives diff => exec (DirtyDiffModelDecorator.triggerDiff_then diff) s
  | provider_answers originalUri =>
      exec (DirtyDiffModelDecorator.getOriginalResource_then originalUri) s
  | reference_arrives originalUri ref =>
      exec (DirtyDiffModelDecorator.createModelReference_then originalUri ref) s
  | resolution_settles => exec DirtyDiffModelDecorator.always_callback s
  | disposes => exec DirtyDiffModelDecorator.dispose s
  | model_disposed o =>
      (set_textModels
         (<[o := with_disposed (textModels s.1 o)]> (textModels s.1)) s.1, s.2)
  | model_edited o n =>
      (set_textModels
         (<[o := with_length n (textModels s.1 o)]> (textModels s.1)) s.1, s.2)
  | provider_changes p => (set_activeProvider p s.1, s.2)
  | setting_changes b => (set_showChangesInGutter b s.1, s.2)
  end.

Definition after (events : list Event) (s : World * DirtyDiffModelDecorator.t)
  : World * DirtyDiffModelDecorator.t :=
  foldl (λ s e, step e s) s events.

(** A decorator as the constructor returns it, with the world it left. *)
Definition constructed (model : IModel) (uri : URI) (w : World)
    (s : World * DirtyDiffModelDecorator.t) : Prop :=
  DirtyDiffModelDecorator.constructor model uri w = (Ok s.2, s.1).

Definition reachable (s : World * DirtyDiffModelDecorator.t) : Prop :=
  ∃ model uri w s0 events, constructed model uri w s0 ∧ s = after events s0.

(** The calls to the decoration API in the log. *)
Definition decoration_calls (w : World) : list Call :=
  base.filter (λ c, is_deltaDecorations c = true) (calls w).

Definition diff_service_calls (w : World) : list Call :=
  base.filter (λ c, is_computeDirtyDiff c = true) (calls w).

Definition provider_calls (w : World) : list Call :=
  base.filter (λ c, is_getOriginalResource c = true) (calls w).

(** The ids the decorator holds: its decoration set. *)
Definition held (c : DirtyDiffModelDecorator.t) : list DecorationId :=
  default [] (DirtyDiffModelDecorator.decorations c).

(** Three facts about the fields that hold from the constructor on: the id
    list is there as long as the buffer reference is, it is empty as long as
    no baseline was loaded, and the cached promise is one that
    [getOriginalURIPromise] made from a provider's answer. *)
Definition consistent (c : DirtyDiffModelDecorator.t) : Prop :=
  (is_Some (DirtyDiffModelDecorator.model c) →
   is_Some (DirtyDiffModelDecorator.decorations c)) ∧
  (DirtyDiffModelDecorator.baselineModel c = None → held c = []) ∧
  (∀ p, DirtyDiffModelDecorator._originalURIPromise c = Some p →
        ∃ n, p = chain n).

(** The buffer and the baseline buffer are both referenced and alive: the
    guard of the completion handler lets the result through. *)
Definition alive (w : World) (c : DirtyDiffModelDecorator.t) : Prop :=
  ∃ m b, DirtyDiffModelDecorator.model c = Some m ∧
         DirtyDiffModelDecorator.baselineModel c = Some b ∧
         DirtyDiffModelDecorator.disposed w m = false ∧
         DirtyDiffModelDecorator.disposed w b = false.

#[global] Instance alive_dec w c : Decision (alive w c).
Proof.
  unfold alive.
  destruct (DirtyDiffModelDecorator.model c) as [m|];
    [|right; intros (?&?&?&_); done].
  destruct (DirtyDiffModelDecorator.baselineModel c) as [b|];
    [|right; intros (?&?&_&?&_); done].
  destruct (DirtyDiffModelDecorator.disposed w m) eqn:Hm;
    [right; intros (?&?&?&?&?&?); simplify_eq; congruence|].
  destruct (DirtyDiffModelDecorator.disposed w b) eqn:Hb;
    [right; intros (?&?&?&?&?&?); simplify_eq; congruence|].
  left. by exists m, b.
Defined.

(** ** One diff cycle

    The chain of callbacks of one cycle, run without anything in between.
    What the collaborators answer is given: [provider] is how the promise of
    [getOriginalResource] settles, [loader] how the promise of
    [createModelReference] settles, [service] how the promise of
    [computeDirtyDiff] settles. *)

(** The promise cached in [_originalURIPromise] settles. *)
Definition resolution (provider : Outcome (option URI))
    (loader : Outcome ModelReference)
  : M (World * DirtyDiffModelDecorator.t) (Outcome (option URI)) :=
  do r <- then_ provider (λ originalUri,
            do p <- DirtyDiffModelDecorator.getOriginalResource_then originalUri ;;
            match p with
            | no_original => ret (Completed None)
            | createModelReference u =>
                then_ loader (λ ref,
                  do u' <- DirtyDiffModelDecorator.createModelReference_then u ref ;;
                  ret (Completed (Some u')))
            end) ;;
  run DirtyDiffModelDecorator.always_callback ;;
  ret r.

(** From the settled resolution to the completion handler:
    [getOriginalURIPromise().then(..)] inside
    [this.diffDelayer.trigger(..).then(..)]. *)
Definition completion (resolved : Outcome (option URI))
    (service : Outcome (list IChange))
  : M (World * DirtyDiffModelDecorator.t)
      (Outcome (option (list DecorationId))) :=
  do changes <- then_ resolved (λ originalURI,
                  do p <- DirtyDiffModelDecorator.diff_then originalURI ;;
                  ret (match p with
                       | as_changes l => Completed l
                       | computeDirtyDiff _ _ => service
                       end)) ;;
  then_ changes (λ diff,
    do r <- DirtyDiffModelDecorator.triggerDiff_then (Some diff) ;;
    ret (Completed r)).

(** The whole cycle, from the moment the delayer runs [this.diff()]. *)
Definition diff_cycle (provider : Outcome (option URI))
    (loader : Outcome ModelReference) (service : Outcome (list IChange))
  : M (World * DirtyDiffModelDecorator.t)
      (Outcome (option (list DecorationId))) :=
  do p <- DirtyDiffModelDecorator.diff ;;
  do resolved <- match p with
                 | as_ v => ret (Completed v)
                 | _ => resolution provider loader
                 end ;;
  completion resolved service.

(** *** A session used in the examples *)

Definition buffer : IModel :=
  {| obj := 1; id := "$model1"; common.uri := Some "file:///a.ts" |}.
Definition baseline : IModel :=
  {| obj := 2; id := "$model2"; common.uri := Some "git:/a.ts" |}.

Definition fresh_model (n : Z) : ModelState :=
  {| isDisposed := false; getValueLength := n;
     getAllDecorations := []; lastDecorationId := 0 |}.

Definition world0 : World :=
  {| textModels := λ _, fresh_model 120;
     activeProvider := Some 7;
     showChangesInGutter := true;
     promises := 0;
     calls := [] |}.

Definition two_changes : list IChange :=
  [ {| originalStartLineNumber := 6; originalEndLineNumber := 0;
       modifiedStartLineNumber := 6; modifiedEndLineNumber := 7 |};
    {| originalStartLineNumber := 9; originalEndLineNumber := 9;
       modifiedStartLineNumber := 10; modifiedEndLineNumber := 0 |} ].

(** The decorator of [buffer], built by the constructor. *)
Definition session0 : World * DirtyDiffModelDecorator.t :=
  match DirtyDiffModelDecorator.constructor buffer "file:///a.ts" world0 with
  | (Ok c, w) => (w, c)
  | (Throw _, w) =>
      (w, {| DirtyDiffModelDecorator.model := None;
             DirtyDiffModelDecorator.uri := "";
             DirtyDiffModelDecorator.decorations := None;
             DirtyDiffModelDecorator.baselineModel := None;
             DirtyDiffModelDecorator.diffDelayer := None;
             DirtyDiffModelDecorator._originalURIPromise := None;
             DirtyDiffModelDecorator.toDispose := [] |})
  end.

(** A first cycle that loads the baseline and decorates two changes. *)
Definition first_cycle : list Event :=
  [ delayer_runs;
    provider_answers (Some "git:/a.ts");
    reference_arrives "git:/a.ts" {| textEditorModel := baseline |};
    resolution_settles;
    original_known (Some "git:/a.ts");
    diff_arrives (Some two_changes) ].

Definition session1 : World * DirtyDiffModelDecorator.t :=
  after first_cycle session0.

(** The first cycle again, with a baseline buffer that has become empty. *)
Definition session_empty_baseline : World * DirtyDiffModelDecorator.t :=
  after [model_edited 2 0] session1.

(** [n] calls of [getOriginalURIPromise] with nothing in between, and the
    promises they return. *)
Fixpoint concurrent_calls (n : nat)
  : M (World * DirtyDiffModelDecorator.t) (list TPromise) :=
  match n with
  | 0 => ret []
  | S n' =>
      do p <- DirtyDiffModelDecorator.getOriginalURIPromise ;;
      do ps <- concurrent_calls n' ;;
      ret (p :: ps)
  end.

(** *** The three ways a resolution yields no baseline *)

(** No promise in flight and no active provider:
    [getOriginalURIPromise] resolves to [null] at once. *)
Definition no_provider (s : World * DirtyDiffModelDecorator.t) : Prop :=
  DirtyDiffModelDecorator._originalURIPromise s.2 = None ∧
  activeProvider s.1 = None.

#[global] Instance no_provider_dec s : Decision (no_provider s).
Proof. unfold no_provider. apply _. Defined.

(** The provider returns [null] for the resource. *)
Definition answers_null (provider : Outcome (option URI)) : Prop :=
  provider = Completed None.

(** The provider fails, or loading the resource it named fails. *)
Definition fails (provider : Outcome (option URI))
    (loader : Outcome ModelReference) : Prop :=
  (∃ e, provider = Failed e) ∨
  (∃ u e, provider = Completed (Some u) ∧ loader = Failed e).

(** The degradation as the specification states it: in each of the three
    cases the cycle ends without an exception and with an empty decoration
    set. *)
Definition degrades_to_empty : Prop :=
  ∀ s provider loader service,
    reachable s →
    no_provider s ∨ answers_null provider ∨ fails provider loader →
    ∃ r s', diff_cycle provider loader service s = (Ok r, s') ∧
            held s'.2 = [].

(** ** The tracker *)

(** The decorator the constructor builds for [model] and [uri]. *)
Definition built (model : IModel) (uri : URI) : DirtyDiffModelDecorator.t :=
  {| DirtyDiffModelDecorator.model := Some model;
     DirtyDiffModelDecorator.uri := uri;
     DirtyDiffModelDecorator.decorations := Some [];
     DirtyDiffModelDecorator.baselineModel := None;
     DirtyDiffModelDecorator.diffDelayer :=
       Some {| defaultDelay := 200; scheduled := true |};
     DirtyDiffModelDecorator._originalURIPromise := None;
     DirtyDiffModelDecorator.toDispose :=
       [onDidChangeContent model; onDidChangeProvider] |}.

(** A decorator on which [dispose()] has run to its end. *)
Definition is_disposed (c : DirtyDiffModelDecorator.t) : Prop :=
  DirtyDiffModelDecorator.model c = None ∧
  DirtyDiffModelDecorator.baselineModel c = None ∧
  DirtyDiffModelDecorator.decorations c = None ∧
  DirtyDiffModelDecorator.diffDelayer c = None ∧
  DirtyDiffModelDecorator.toDispose c = [].

(** Models that differ have ids that differ. *)
Definition distinct_ids (l : list IModel) : Prop :=
  ∀ m m', m ∈ l → m' ∈ l → id m = id m' → m = m'.

(** [decorators[m.id]] refers to an instance that decorates [m]. *)
Definition decorated (wb : DirtyDiffDecorator.Workbench)
    (self : DirtyDiffDecorator.t) (m : IModel) : Prop :=
  ∃ i c, DirtyDiffDecorator.decorators self !! id m = Some i ∧
         DirtyDiffDecorator.instances wb !! i = Some c ∧
         DirtyDiffModelDecorator.model c = Some m ∧
         consistent c.

(** What the tracker keeps between two notifications: its models are
    distinct and each has its decorator. *)
Definition tracking (wb : DirtyDiffDecorator.Workbench)
    (self : DirtyDiffDecorator.t) : Prop :=
  NoDup (DirtyDiffDecorator.models self) ∧
  ∀ m, m ∈ DirtyDiffDecorator.models self → decorated wb self m.

(** *** Three buffers for the examples *)
Definition model_A : IModel :=
  {| obj := 11; id := "$model11"; common.uri := Some "file:///A" |}.
Definition model_B : IModel :=
  {| obj := 12; id := "$model12"; common.uri := Some "file:///B" |}.
Definition model_C : IModel :=
  {| obj := 13; id := "$model13"; common.uri := Some "file:///C" |}.

Definition editor (m : IModel) : DirtyDiffDecorator.IEditor :=
  {| DirtyDiffDecorator.getControl := DirtyDiffDecorator.CodeEditor (Some m) |}.

(** The tracker after the editors of [A] and [B] were shown. *)
Definition shown_AB
  : DirtyDiffDecorator.Workbench * DirtyDiffDecorator.t :=
  exec (DirtyDiffDecorator.onEditorsChanged [editor model_A; editor model_B])
    ({| DirtyDiffDecorator.world := world0;
        DirtyDiffDecorator.instances := ∅ |},
     DirtyDiffDecorator.initial).

(** The editors of the second notification: [B] twice, a widget that is no
    code editor, and [C]. *)
Definition editors_BC : list DirtyDiffDecorator.IEditor :=
  [editor model_B;
   {| DirtyDiffDecorator.getControl := DirtyDiffDecorator.other_control |};
   editor model_C; editor model_B].

Definition shown_BC
  : DirtyDiffDecorator.Workbench * DirtyDiffDecorator.t :=
  exec (DirtyDiffDecorator.onEditorsChanged editors_BC) shown_AB.

(** What the filter [(m, i, a) => !!m && !!m.uri && a.indexOf(m, i + 1) === -1]
    amounts to: of the entries with a uri, the last occurrence is kept. *)
Fixpoint keep_last (l : list (option IModel)) : list (option IModel) :=
  match l with
  | [] => []
  | x :: l' =>
      if DirtyDiffDecorator.has_uri x && bool_decide (x ∉ l')
      then x :: keep_last l' else keep_last l'
  end.

(** * The rest of the file

    ** [DirtyDiffDecorator.dispose] and the tracker after it *)
Module DirtyDiffDecoratorLife.

(** [dispose] sets [models] and [decorators] to [null]: the fields of a
    tracker are those of [DirtyDiffDecorator.t], or only [toDispose] with the
    two others [null]. *)
Inductive Fields :=
| in_use (self : DirtyDiffDecorator.t)
| nulled (toDispose : list IDisposable).

Definition set_toDispose (v : list IDisposable) (self : DirtyDiffDecorator.t)
  : DirtyDiffDecorator.t :=
  {| DirtyDiffDecorator.models := DirtyDiffDecorator.models self;
     DirtyDiffDecorator.decorators := DirtyDiffDecorator.decorators self;
     DirtyDiffDecorator.toDispose := v |}.

(** [getId] *)
Definition getId : string := "git.DirtyDiffModelDecorator".

(** The arrow function [m => this.decorators[m.id].dispose()]. *)
Definition dispose_decorator (m : IModel)
  : M (DirtyDiffDecorator.Workbench * DirtyDiffDecorator.t) unit :=
  do self <- DirtyDiffDecorator.this ;;
  match DirtyDiffDecorator.decorators self !! id m with
  | None => throw "TypeError: Cannot read property 'dispose' of undefined"
  | Some i => DirtyDiffDecorator.invoke i DirtyDiffModelDecorator.dispose
  end.

(** [dispose]: the handles are released first, then every model of
    [this.models] has its decorator disposed, then the two fields are set to
    [null]. On a tracker whose [models] is [null] the call of [forEach]
    throws. *)
Definition dispose : M (DirtyDiffDecorator.Workbench * Fields) unit :=
  λ s,
    let handles := match s.2 with
                   | in_use self => DirtyDiffDecorator.toDispose self
                   | nulled handles => handles
                   end in
    match lifecycle_dispose handles (DirtyDiffDecorator.world s.1) with
    | (Throw e, w1) =>
        (Throw e,
         ({| DirtyDiffDecorator.world := w1;
             DirtyDiffDecorator.instances := DirtyDiffDecorator.instances s.1 |},
          s.2))
    | (Ok emptied, w1) =>
        let wb1 := {| DirtyDiffDecorator.world := w1;
                      DirtyDiffDecorator.instances :=
                        DirtyDiffDecorator.instances s.1 |} in
        match s.2 with
        | nulled _ =>
            (Throw "TypeError: Cannot read property 'forEach' of null",
             (wb1, nulled emptied))
        | in_use self =>
            let self1 := set_toDispose emptied self in
            match forEach dispose_decorator
                    (DirtyDiffDecorator.models self1) (wb1, self1) with
            | (Ok _, (wb2, self2)) =>
                (Ok tt, (wb2, nulled (DirtyDiffDecorator.toDispose self2)))
            | (Throw e, (wb2, self2)) => (Throw e, (wb2, in_use self2))
            end
        end
    end.

(** [onEditorsChanged] on either kind of tracker: with [this.models] set to
    [null] the first use of it ([this.models.every] when there is a visible
    model, [this.models.filter] when there is none) throws before anything
    is changed. *)
Definition onEditorsChanged (editors : list DirtyDiffDecorator.IEditor)
  : M (DirtyDiffDecorator.Workbench * Fields) unit :=
  λ s,
    match s.2 with
    | in_use self =>
        let '(r, (wb', self')) :=
          DirtyDiffDecorator.onEditorsChanged editors (s.1, self) in
        (r, (wb', in_use self'))
    | nulled _ =>
        (Throw (match DirtyDiffDecorator.visibleModels editors with
                | [] => "TypeError: Cannot read property 'filter' of null"
                | _ :: _ => "TypeError: Cannot read property 'every' of null"
                end), s)
    end.

End DirtyDiffDecoratorLife.

(** ** The theming participant *)
Module theming.

(** The three colours registered by the file. *)
Inductive ColorId :=
| editorGutterModifiedBackground
| editorGutterAddedBackground
| editorGutterDeletedBackground.

(** [theme.getColor(id)]: the colour, as a template literal prints it, or
    [undefined]. *)
Definition ITheme : Type := ColorId → option string.

Definition nl : string := String (Ascii.ascii_of_nat 10) "".
Definition tab : string := String (Ascii.ascii_of_nat 9) "".

Definition modified_rule (color : string) : string :=
  ".monaco-editor .dirty-diff-modified-glyph { border-left: 3px solid "
  +:+ color +:+ "; }".

Definition added_rule (color : string) : string :=
  ".monaco-editor .dirty-diff-added-glyph { border-left: 3px solid "
  +:+ color +:+ "; }".

Definition deleted_rule (color : string) : string :=
  nl +:+ tab +:+ tab +:+ tab
  +:+ ".monaco-editor .dirty-diff-deleted-glyph:after {"
  +:+ nl +:+ tab +:+ tab +:+ tab +:+ tab
  +:+ "border-top: 4px solid transparent;"
  +:+ nl +:+ tab +:+ tab +:+ tab +:+ tab
  +:+ "border-bottom: 4px solid transparent;"
  +:+ nl +:+ tab +:+ tab +:+ tab +:+ tab
  +:+ "border-left: 4px solid " +:+ color +:+ ";"
  +:+ nl +:+ tab +:+ tab +:+ tab +:+ "}"
  +:+ nl +:+ tab +:+ tab.

Definition hidden_rule : string :=
  nl +:+ tab +:+ tab +:+ tab
  +:+ ".monaco-editor .dirty-diff-hidden-glyph {"
  +:+ nl +:+ tab +:+ tab +:+ tab +:+ tab +:+ "display: none;"
  +:+ nl +:+ tab +:+ tab +:+ tab +:+ "}"
  +:+ nl +:+ tab.

(** [collector.addRule(rule)] on the rules collected so far. *)
Definition addRule (rule : string) (collector : list string) : list string :=
  collector ++ [rule].

(** The function given to [registerThemingParticipant]. *)
Definition participant (theme : ITheme) (collector : list string)
  : list string :=
  let collector :=
    match theme editorGutterModifiedBackground with
    | Some color => addRule (modified_rule color) collector
    | None => collector
    end in
  let collector :=
    match theme editorGutterAddedBackground with
    | Some color => addRule (added_rule color) collector
    | None => collector
    end in
  let collector :=
    match theme editorGutterDeletedBackground with
    | Some color => addRule (deleted_rule color) collector
    | None => collector
    end in
  (* TODO: Cleanup *)
  addRule hidden_rule collector.

(** The class names in the registered decoration options
    ([linesDecorationsClassName]). *)
Definition linesDecorationsClassName (o : ModelDecorationOptions) : string :=
  match o with
  | MODIFIED_DECORATION_OPTIONS => "dirty-diff-modified-glyph"
  | ADDED_DECORATION_OPTIONS => "dirty-diff-added-glyph"
  | DELETED_DECORATION_OPTIONS => "dirty-diff-deleted-glyph"
  | HIDDEN_DECORATION_OPTIONS => "dirty-diff-hidden-glyph"
  end.

End theming.

(** ** More vocabulary *)

Definition is_dispose (c : Call) : bool :=
  match c with dispose_call _ => true | _ => false end.

(** The handles released so far, in order. *)
Definition released (w : World) : list IDisposable :=
  omap (λ c, match c with dispose_call d => Some d | _ => None end) (calls w).


(** A decorator is in use when buffer reference, id list and delayer are all
    there, and disposed of when all three are [null]. *)
Definition in_use (c : DirtyDiffModelDecorator.t) : Prop :=
  is_Some (DirtyDiffModelDecorator.model c) ∧
  is_Some (DirtyDiffModelDecorator.decorations c) ∧
  is_Some (DirtyDiffModelDecorator.diffDelayer c).

Definition disposed_of (c : DirtyDiffModelDecorator.t) : Prop :=
  DirtyDiffModelDecorator.model c = None ∧
  DirtyDiffModelDecorator.decorations c = None ∧
  DirtyDiffModelDecorator.diffDelayer c = None.

(** A change whose modified range, when it has one, is not inverted. *)
Definition well_formed (change : IChange) : Prop :=
  modifiedEndLineNumber change = 0%Z ∨
  (modifiedStartLineNumber change ≤ modifiedEndLineNumber change)%Z.

(** * Theorems

    ** The mapper *)

Import DirtyDiffModelDecorator.

Lemma changesToDecorations_lookup diff hidden (i : nat) change :
  diff !! i = Some change →
  changesToDecorations diff hidden !! i = Some (changeToDecoration hidden change).
Proof.
  intros Hi. unfold changesToDecorations. by rewrite list_lookup_fmap, Hi.
Qed.

Lemma changesToDecorations_length diff hidden :
  length (changesToDecorations diff hidden) = length diff.
Proof. unfold changesToDecorations. apply length_fmap. Qed.

Lemma changeToDecoration_in_order change :
  classified_in_order change (changeToDecoration false change).
Proof.
  unfold classified_in_order, changeToDecoration, kind, spans, js_or.
  repeat split; intros; repeat case_decide; simpl; congruence.
Qed.

(** C1, as stated, fails: the change with both sentinels set is mapped to an
    Added decoration, while the unordered rules also ask for Removed. *)
Lemma changesToDecorations_unordered_rules_fail :
  ¬ (∀ diff, pointwise classified_by_sentinels diff
               (changesToDecorations diff false)).
Proof.
  intros H. destruct (H [insertion_without_end]) as [_ Hp].
  destruct (Hp 0%nat insertion_without_end eq_refl) as (d & Hd & _ & Hrem & _).
  vm_compute in Hd. injection Hd as <-.
  destruct (Hrem eq_refl) as [Hk _]. vm_compute in Hk. discriminate.
Qed.

(** C1 (amended): with [hidden = false] the mapper keeps length and order,
    and maps a change with [originalEndLineNumber = 0] to Added over
    [modifiedStartLineNumber, modifiedEndLineNumber || modifiedStartLineNumber],
    a change with [modifiedEndLineNumber = 0] and a non-zero
    [originalEndLineNumber] to Removed on the single line
    [modifiedStartLineNumber], and every other change to Modified over
    [modifiedStartLineNumber, modifiedEndLineNumber]. *)
Theorem changesToDecorations_classification (diff : list IChange) :
  pointwise classified_in_order diff (changesToDecorations diff false).
Proof.
  split; [apply changesToDecorations_length|].
  intros i change Hi. exists (changeToDecoration false change).
  split; [by apply changesToDecorations_lookup|].
  apply changeToDecoration_in_order.
Qed.

Lemma changesToDecorations_classification_witness :
  pointwise classified_in_order
    [insertion_without_end;
     {| originalStartLineNumber := 9; originalEndLineNumber := 9;
        modifiedStartLineNumber := 8; modifiedEndLineNumber := 0 |}]
    (changesToDecorations
       [insertion_without_end;
        {| originalStartLineNumber := 9; originalEndLineNumber := 9;
           modifiedStartLineNumber := 8; modifiedEndLineNumber := 0 |}] false).
Proof. apply changesToDecorations_classification. Defined.

(** C2: with [hidden = true] the output has one decoration per change, each
    of kind Hidden, starting and ending on line 0 and covering no column,
    whatever the changes are. *)
Theorem changesToDecorations_hidden (diff : list IChange) :
  length (changesToDecorations diff true) = length diff ∧
  Forall (λ d, kind d = Hidden ∧ spans d 0 0 ∧
               range d = {| startLineNumber := 0; startColumn := 1;
                            endLineNumber := 0; endColumn := 0 |} ∧
               ∀ c, ¬ covers_column (range d) c)
         (changesToDecorations diff true).
Proof.
  split; [apply changesToDecorations_length|].
  unfold changesToDecorations. apply Forall_fmap, Forall_forall.
  intros change _. simpl. repeat split.
  intros c. unfold covers_column. simpl. lia.
Qed.

(** C10: a change with both sentinels set is classified as Added, on the
    single line [modifiedStartLineNumber], and not as Removed. *)
Theorem changesToDecorations_added_before_removed
    (diff : list IChange) (i : nat) (change : IChange) :
  diff !! i = Some change →
  originalEndLineNumber change = 0%Z →
  modifiedEndLineNumber change = 0%Z →
  ∃ d, changesToDecorations diff false !! i = Some d ∧
       kind d = Added ∧ kind d ≠ Removed ∧
       spans d (modifiedStartLineNumber change) (modifiedStartLineNumber change).
Proof.
  intros Hi Ho Hm. exists (changeToDecoration false change).
  split; [by apply changesToDecorations_lookup|].
  unfold changeToDecoration, kind, spans, js_or.
  rewrite Ho, Hm. repeat case_decide; done.
Qed.

Lemma changesToDecorations_added_before_removed_witness :
  ∃ d, changesToDecorations [insertion_without_end] false !! 0%nat = Some d ∧
       kind d = Added ∧ kind d ≠ Removed ∧ spans d 4 4.
Proof.
  apply (changesToDecorations_added_before_removed
           [insertion_without_end] 0 insertion_without_end); reflexivity.
Defined.

(** ** The decorator of one buffer *)

(** Unfolds the plumbing of the state-and-exception computations. *)
Ltac simp := repeat (progress (cbn [fst snd] in *; simpl in * )).

Ltac unfold_M :=
  unfold exec, call, DirtyDiffModelDecorator.this,
    DirtyDiffModelDecorator.world, DirtyDiffModelDecorator.assign,
    on_world, bind, ret, throw, get, modify in *;
  simp.

Lemma forEach_log (ds : list IDisposable) (w : World) :
  forEach (λ d, modify (log (dispose_call d))) ds w =
  (Ok tt, {| textModels := textModels w; activeProvider := activeProvider w;
             showChangesInGutter := showChangesInGutter w;
             promises := promises w;
             calls := calls w ++ (dispose_call <$> ds) |}).
Proof.
  revert w. induction ds as [|d ds IH]; intros w; simpl.
  - unfold ret. rewrite app_nil_r. by destruct w.
  - unfold bind, modify at 1. rewrite IH. simpl.
    by rewrite <- app_assoc.
Qed.

Lemma lifecycle_dispose_nil (w : World) :
  lifecycle_dispose [] w = (Ok [], w).
Proof.
  unfold lifecycle_dispose, bind. rewrite forEach_log. simpl.
  rewrite app_nil_r. by destruct w.
Qed.

Lemma decoration_calls_dispose (ds : list IDisposable) (w : World) r w' :
  lifecycle_dispose ds w = (r, w') →
  r = Ok [] ∧ decoration_calls w' = decoration_calls w ∧
  textModels w' = textModels w.
Proof.
  unfold lifecycle_dispose, bind. rewrite forEach_log. unfold ret.
  intros [= <- <-]. split; [done|]. split; [|done].
  unfold decoration_calls. simpl. rewrite filter_app.
  replace (base.filter _ (dispose_call <$> ds)) with (@nil Call);
    [by rewrite app_nil_r|].
  induction ds as [|d ds IH]; [done|]. simpl.
  rewrite filter_cons_False; [done|]. simpl. done.
Qed.

(** The completion handler lets nothing through unless buffer and baseline
    are both referenced and alive. *)
Lemma triggerDiff_then_stale w c diff :
  ¬ alive w c → triggerDiff_then diff (w, c) = (Ok None, (w, c)).
Proof.
  intros Hna. unfold triggerDiff_then. unfold_M. simpl.
  destruct (model c) as [m|] eqn:Hm; [|done].
  destruct (baselineModel c) as [b|] eqn:Hb; [|done].
  destruct (disposed w m) eqn:Hdm; [done|].
  destruct (disposed w b) eqn:Hdb; [done|].
  exfalso. apply Hna. by exists m, b.
Qed.

(** What the handler does when it applies a result. *)
Lemma triggerDiff_then_applied w c m b old diff :
  model c = Some m → baselineModel c = Some b →
  decorations c = Some old →
  disposed w m = false → disposed w b = false →
  let changes :=
    if decide (getValueLength (textModels w (obj b)) = 0%Z)
    then [] else default [] diff in
  let new := changesToDecorations changes (negb (showChangesInGutter w)) in
  let st := textModels w (obj m) in
  let ids := seq (S (lastDecorationId st)) (length new) in
  triggerDiff_then diff (w, c) =
  (Ok (Some ids),
   ({| textModels :=
         <[obj m :=
             {| isDisposed := isDisposed st;
                getValueLength := getValueLength st;
                getAllDecorations :=
                  base.filter (λ p, p.1 ∉ old) (getAllDecorations st)
                  ++ zip ids new;
                lastDecorationId := lastDecorationId st + length new |}]>
           (textModels w);
       activeProvider := activeProvider w;
       showChangesInGutter := showChangesInGutter w;
       promises := promises w;
       calls := calls w ++ [deltaDecorations_call m (Some old) new] |},
    set_decorations (Some ids) c)).
Proof.
  intros Hm Hb Hold Hdm Hdb. simpl.
  unfold triggerDiff_then, deltaDecorations. unfold_M. simpl.
  rewrite Hm, Hb, Hdm, Hdb, Hold. simpl.
  unfold disposed in Hdm. rewrite Hdm.
  by destruct (decide (getValueLength (textModels w (obj b)) = 0%Z)).
Qed.
Lemma dispose_of_disposed w c :
  toDispose c = [] → model c = None → baselineModel c = None →
  decorations c = None → diffDelayer c = None →
  dispose (w, c) = (Ok tt, (w, c)).
Proof.
  intros Ht Hm Hb Hd Hdd. unfold dispose. unfold_M.
  rewrite Ht, lifecycle_dispose_nil. simp. rewrite Hm. simp. rewrite Hdd.
  destruct c; simpl in *; by subst.
Qed.

Lemma dispose_completes w c :
  consistent c →
  ∃ w1 c1, dispose (w, c) = (Ok tt, (w1, c1)) ∧
    toDispose c1 = [] ∧ model c1 = None ∧ baselineModel c1 = None ∧
    decorations c1 = None ∧ diffDelayer c1 = None ∧
    _originalURIPromise c1 = _originalURIPromise c ∧
    (∀ m, model c = Some m → disposed w m = true →
          decoration_calls w1 = decoration_calls w).
Proof.
  intros [Hdec _]. unfold dispose. unfold_M. simpl.
  destruct (lifecycle_dispose (toDispose c) w) as [r w0] eqn:Hl.
  apply decoration_calls_dispose in Hl as (-> & Hcalls & Htm). simp.
  destruct (model c) as [m|] eqn:Hm.
  - destruct (Hdec (ltac:(eauto))) as [old Hold].
    simp. unfold disposed. rewrite Htm.
    destruct (isDisposed (textModels w (obj m))) eqn:Hdm; simp.
    + destruct (diffDelayer c) eqn:Hdd; simp; eexists _, _;
        repeat split; eauto.
    + unfold deltaDecorations. unfold_M. rewrite Htm, Hdm, Hold. simp.
      destruct (diffDelayer c) eqn:Hdd; simp; eexists _, _;
        repeat split; eauto; intros; simplify_eq; congruence.
  - simp. destruct (diffDelayer c) eqn:Hdd; simp; eexists _, _;
      repeat split; eauto; intros; simplify_eq.
Qed.

(** Once the buffer reference is gone, no event brings it back and no event
    calls the decoration API. *)
Lemma step_without_model e w c :
  model c = None →
  model (step e (w, c)).2 = None ∧
  decoration_calls (step e (w, c)).1 = decoration_calls w.
Proof.
  intros Hm. destruct e; unfold step, exec.
  - unfold triggerDiff. unfold_M. simpl. by destruct (diffDelayer c).
  - simp. destruct (diffDelayer c) as [d|]; [|done].
    destruct (scheduled d); [|done].
    unfold diff, getOriginalURIPromise. unfold_M. simpl.
    destruct (_originalURIPromise c); simp; [done|].
    destruct (activeProvider w); simp; [|done]. split; [done|].
    unfold decoration_calls. simpl. rewrite filter_app. simpl.
    rewrite filter_cons_False, filter_nil, app_nil_r; done.
  - unfold diff_then. unfold_M. simpl. by rewrite Hm.
  - rewrite triggerDiff_then_stale; [done|].
    intros (m & _ & Hm' & _). congruence.
  - unfold getOriginalResource_then. unfold_M.
    destruct originalUri; simpl; [|done]. split; [done|].
    unfold decoration_calls. simpl. rewrite filter_app. simpl.
    rewrite filter_cons_False, filter_nil, app_nil_r; done.
  - done.
  - done.
  - unfold dispose. unfold_M. simpl.
    destruct (lifecycle_dispose (toDispose c) w) as [r w0] eqn:Hl.
    apply decoration_calls_dispose in Hl as (-> & Hcalls & _). simp.
    rewrite Hm. simp. by destruct (diffDelayer c).
  - done.
  - done.
  - done.
  - done.
Qed.

Lemma after_without_model events w c :
  model c = None →
  model (after events (w, c)).2 = None ∧
  decoration_calls (after events (w, c)).1 = decoration_calls w.
Proof.
  revert w c. induction events as [|e events IH]; intros w c Hm; [done|].
  simpl. destruct (step_without_model e w c Hm) as [Hm' Hc'].
  destruct (step e (w, c)) as [w' c'] eqn:Hs. simpl in *.
  destruct (IH w' c' Hm') as [? ?]. split; [done|congruence].
Qed.

(** [consistent] holds of a new decorator and every event keeps it. *)
Lemma constructor_consistent model0 uri0 w s :
  constructed model0 uri0 w s → consistent s.2.
Proof.
  unfold constructed, constructor, triggerDiff. unfold_M.
  intros [= <- _]. repeat split; simpl; eauto. done.
Qed.

Lemma consistent_same c c' :
  model c' = model c → decorations c' = decorations c →
  baselineModel c' = baselineModel c →
  _originalURIPromise c' = _originalURIPromise c →
  consistent c → consistent c'.
Proof.
  unfold consistent, held. intros -> -> -> ->. done.
Qed.

Lemma step_consistent e w c :
  consistent c → consistent (step e (w, c)).2.
Proof.
  intros Hc. pose proof Hc as (Hdec & Hbase & Hcache).
  destruct e as [| |originalURI|changes|originalUri|originalUri ref| | | | | |];
    unfold step, exec.
  - unfold triggerDiff. unfold_M.
    destruct (diffDelayer c); simp; [|done].
    by apply (consistent_same c).
  - simp. destruct (diffDelayer c) as [d|]; [|done].
    destruct (scheduled d); [|done].
    unfold diff, getOriginalURIPromise. unfold_M.
    destruct (_originalURIPromise c) eqn:Hp; simp;
      [by apply (consistent_same c)|].
    destruct (activeProvider w); simp; [|by apply (consistent_same c)].
    split; [done|]. split; [done|]. simpl. intros p [= <-]. by eexists.
  - unfold diff_then. unfold_M. destruct (model c) as [m|]; simp; [|done].
    destruct originalURI; simp; [|done]. by destruct (disposed w m).
  - destruct (decide (alive w c)) as [Ha|Ha].
    + destruct Ha as (m & b & Hm & Hb & Hdm & Hdb).
      destruct (Hdec (ltac:(rewrite Hm; eauto))) as [old Hold].
      rewrite (triggerDiff_then_applied w c m b old changes) by done.
      simp. split; simpl; [eauto|]. split; [|done]. rewrite Hb. done.
    + by rewrite triggerDiff_then_stale.
  - unfold getOriginalResource_then. unfold_M. by destruct originalUri.
  - unfold createModelReference_then. unfold_M.
    split; simpl; [done|]. split; [done|]. done.
  - unfold always_callback. unfold_M.
    split; simpl; [done|]. split; [done|]. done.
  - destruct (dispose_completes w c Hc)
      as (w1 & c1 & Hd & Ht & Hm & Hb & Hdc & Hdd & Hkeep & _).
    rewrite Hd. simp. split; [rewrite Hm; by intros [? ?]|].
    split; [unfold held; by rewrite Hdc|]. by rewrite Hkeep.
  - done.
  - done.
  - done.
  - done.
Qed.

Lemma reachable_consistent s : reachable s → consistent s.2.
Proof.
  intros (model0 & uri0 & w & s0 & events & Hc & ->).
  apply constructor_consistent in Hc. clear model0 uri0 w.
  revert s0 Hc. induction events as [|e events IH]; intros [w c] Hc; [done|].
  simpl. apply IH. destruct (step e (w, c)) as [w' c'] eqn:Hs.
  pose proof (step_consistent e w c Hc) as H. by rewrite Hs in H.
Qed.

(** C3: when a diff result is applied (the buffer and the baseline buffer
    are referenced and alive) and the baseline buffer has length 0, the
    handler calls the decoration API with the empty list whatever changes
    the diff service returned: the decorator holds no decoration afterwards
    and every decoration it held has left the buffer. *)
Theorem empty_baseline_override w c m b old (diff : option (list IChange)) :
  model c = Some m → baselineModel c = Some b →
  decorations c = Some old →
  disposed w m = false → disposed w b = false →
  getValueLength (textModels w (obj b)) = 0%Z →
  ∃ w' c',
    triggerDiff_then diff (w, c) = (Ok (Some []), (w', c')) ∧
    decorations c' = Some [] ∧ held c' = [] ∧
    calls w' = calls w ++ [deltaDecorations_call m (Some old) []] ∧
    getAllDecorations (textModels w' (obj m)) =
      base.filter (λ p, p.1 ∉ old) (getAllDecorations (textModels w (obj m))) ∧
    ((∀ p, p ∈ getAllDecorations (textModels w (obj m)) → p.1 ∈ old) →
     getAllDecorations (textModels w' (obj m)) = []).
Proof.
  intros Hm Hb Hold Hdm Hdb Hlen.
  rewrite (triggerDiff_then_applied w c m b old diff) by done.
  rewrite decide_True by done. simpl.
  eexists _, _. split; [done|]. simpl.
  rewrite fn_lookup_insert. simpl. rewrite app_nil_r.
  repeat split; try done.
  intros Hall. induction (getAllDecorations (textModels w (obj m)))
    as [|p l IH]; [done|].
  rewrite filter_cons_False.
  - apply IH. intros q Hq. apply Hall. by right.
  - intros Hnot. apply Hnot, Hall. by left.
Qed.

(** [consistent] of a decorator given in full. *)
Ltac consistent_by_computation :=
  split; [intros _; by eexists|];
  split; [intros H; vm_compute in H; vm_compute; first [reflexivity|discriminate]|];
  intros p H; vm_compute in H; first [discriminate|injection H as <-; by eexists].

Lemma empty_baseline_override_witness :
  held (triggerDiff_then (Some two_changes) session_empty_baseline).2.2 = [].
Proof.
  destruct (empty_baseline_override
              session_empty_baseline.1 session_empty_baseline.2
              buffer baseline [1; 2] (Some two_changes)
              eq_refl eq_refl eq_refl eq_refl eq_refl eq_refl)
    as (w' & c' & Heq & _ & Hheld & _).
  change (session_empty_baseline.1, session_empty_baseline.2)
    with session_empty_baseline in Heq.
  rewrite Heq. exact Hheld.
Defined.

(** C4: after [dispose()], whatever callbacks still run and in whatever
    order, no call to the decoration API is made, and a diff result that
    arrives then is dropped by the completion handler; the handler drops the
    result as well whenever the buffer or the baseline buffer is missing or
    disposed. *)
Theorem staleness_discard w c (events : list Event)
    (diff : option (list IChange)) :
  consistent c →
  let s1 := exec dispose (w, c) in
  let s2 := after events s1 in
  decoration_calls s2.1 = decoration_calls s1.1 ∧
  triggerDiff_then diff s2 = (Ok None, s2) ∧
  (∀ w' c', ¬ alive w' c' →
     triggerDiff_then diff (w', c') = (Ok None, (w', c'))).
Proof.
  intros Hc s1 s2.
  destruct (dispose_completes w c Hc) as (w1 & c1 & Hd & _ & Hm & _).
  assert (s1 = (w1, c1)) as Hs1 by (unfold s1, exec; by rewrite Hd).
  destruct (after_without_model events w1 c1 Hm) as [Hm2 Hcalls].
  subst s2. rewrite Hs1. split; [done|]. split.
  - destruct (after events (w1, c1)) as [w2 c2]. simpl in Hm2.
    apply triggerDiff_then_stale. intros (m & _ & Hm' & _). congruence.
  - intros w' c'. apply triggerDiff_then_stale.
Qed.

Lemma staleness_discard_witness :
  decoration_calls
    (after [diff_arrives (Some two_changes); triggers; delayer_runs;
            reference_arrives "git:/a.ts" {| textEditorModel := baseline |};
            diff_arrives (Some two_changes)]
       (exec dispose session1)).1 =
  decoration_calls (exec dispose session1).1.
Proof.
  apply (staleness_discard session1.1 session1.2
           [diff_arrives (Some two_changes); triggers; delayer_runs;
            reference_arrives "git:/a.ts" {| textEditorModel := baseline |};
            diff_arrives (Some two_changes)] None).
  consistent_by_computation.
Defined.

(** C8: [dispose()] returns normally, also when the buffer was disposed
    before (no call to the decoration API is made then), and a second
    [dispose()] returns normally and changes nothing: neither a field of the
    decorator, nor a text model, nor the log of calls. *)
Theorem dispose_idempotent w c :
  consistent c →
  ∃ s1, dispose (w, c) = (Ok tt, s1) ∧
        dispose s1 = (Ok tt, s1) ∧
        (∀ m, model c = Some m → disposed w m = true →
              decoration_calls s1.1 = decoration_calls w).
Proof.
  intros Hc.
  destruct (dispose_completes w c Hc)
    as (w1 & c1 & Hd & Ht & Hm & Hb & Hdec & Hdd & _ & Hcalls).
  exists (w1, c1). split; [done|]. split; [|done].
  by apply dispose_of_disposed.
Qed.

Lemma dispose_idempotent_witness :
  ∃ s1, dispose (after [model_disposed 1] session1) = (Ok tt, s1) ∧
        dispose s1 = (Ok tt, s1).
Proof.
  destruct (dispose_idempotent (after [model_disposed 1] session1).1
              (after [model_disposed 1] session1).2)
    as (s1 & H1 & H2 & _).
  - consistent_by_computation.
  - exists s1. split; [exact H1|exact H2].
Defined.

(** *** The cached resolution *)

Lemma filter_provider_calls_snoc (l : list Call) (c : Call) :
  base.filter (λ c, is_getOriginalResource c = true) (l ++ [c]) =
  base.filter (λ c, is_getOriginalResource c = true) l
  ++ (if is_getOriginalResource c then [c] else []).
Proof.
  rewrite filter_app. f_equal.
  destruct (is_getOriginalResource c) eqn:Hc.
  - by rewrite filter_cons_True.
  - rewrite filter_cons_False; [done|]. by rewrite Hc.
Qed.

(** While a promise is cached every call returns it and changes nothing. *)
Lemma getOriginalURIPromise_cached w c p :
  _originalURIPromise c = Some p →
  getOriginalURIPromise (w, c) = (Ok p, (w, c)).
Proof. intros H. unfold getOriginalURIPromise. unfold_M. by rewrite H. Qed.

(** Without a cached promise the provider is asked once. *)
Lemma getOriginalURIPromise_fresh w c provider :
  _originalURIPromise c = None → activeProvider w = Some provider →
  getOriginalURIPromise (w, c) =
  (Ok (always (chain (promises w))),
   (set_promises (S (promises w))
      (log (getOriginalResource_call provider (uri c)) w),
    set_originalURIPromise (Some (chain (promises w))) c)).
Proof.
  intros H Hp. unfold getOriginalURIPromise. unfold_M.
  rewrite H. simp. by rewrite Hp.
Qed.

Lemma getOriginalURIPromise_no_provider w c :
  _originalURIPromise c = None → activeProvider w = None →
  getOriginalURIPromise (w, c) = (Ok (as_ None), (w, c)).
Proof.
  intros H Hp. unfold getOriginalURIPromise. unfold_M.
  rewrite H. simp. by rewrite Hp.
Qed.

Lemma concurrent_calls_cached n w c p :
  _originalURIPromise c = Some p →
  concurrent_calls n (w, c) = (Ok (replicate n p), (w, c)).
Proof.
  intros H. induction n as [|n IH]; [done|].
  simpl. unfold bind at 1. rewrite (getOriginalURIPromise_cached w c p) by done.
  unfold bind at 1. by rewrite IH.
Qed.

(** Settlement runs the callback of [always]: the cache is empty after it,
    and nothing but the cache, the baseline fields and the log changed. *)
Lemma resolution_settled provider loader w c :
  ∃ r w' c', resolution provider loader (w, c) = (Ok r, (w', c')) ∧
    _originalURIPromise c' = None ∧
    uri c' = uri c ∧ model c' = model c ∧ decorations c' = decorations c ∧
    activeProvider w' = activeProvider w ∧ promises w' = promises w ∧
    textModels w' = textModels w ∧
    showChangesInGutter w' = showChangesInGutter w ∧
    provider_calls w' = provider_calls w ∧
    decoration_calls w' = decoration_calls w ∧
    diff_service_calls w' = diff_service_calls w ∧
    (provider = Completed None → r = Completed None ∧
       baselineModel c' = baselineModel c) ∧
    (∀ e, provider = Failed e → r = Failed e ∧
       baselineModel c' = baselineModel c) ∧
    (∀ u e, provider = Completed (Some u) → loader = Failed e →
       r = Failed e ∧ baselineModel c' = baselineModel c).
Proof.
  unfold resolution, then_, getOriginalResource_then,
    createModelReference_then, always_callback.
  destruct provider as [[u|]|e]; [destruct loader as [ref|e]|..];
    unfold_M; eexists _, _, _; (split; [reflexivity|]); simpl;
    unfold provider_calls, decoration_calls, diff_service_calls; simpl;
    rewrite ?filter_app, ?filter_cons_False, ?filter_nil, ?app_nil_r
      by (simpl; done);
    repeat split; try done; intros; simplify_eq; done.
Qed.

(** C6: of [n + 1] calls to [getOriginalURIPromise] made while nothing is
    cached and a provider is active, the first asks the provider (once) and
    caches the resulting promise; the [n] calls that follow return that very
    cached promise and ask nobody. When the promise settles, with a value or
    with an error, the cache is cleared, and the next call asks the provider
    again and caches a new promise. *)
Theorem single_flight w c provider (n : nat)
    (provider_outcome : Outcome (option URI))
    (loader_outcome : Outcome ModelReference) :
  _originalURIPromise c = None →
  activeProvider w = Some provider →
  let k := promises w in
  ∃ s1,
    concurrent_calls (S n) (w, c) =
      (Ok (always (chain k) :: replicate n (chain k)), s1) ∧
    _originalURIPromise s1.2 = Some (chain k) ∧
    provider_calls s1.1 =
      provider_calls w ++ [getOriginalResource_call provider (uri c)] ∧
    ∃ r s2,
      resolution provider_outcome loader_outcome s1 = (Ok r, s2) ∧
      _originalURIPromise s2.2 = None ∧
      provider_calls s2.1 = provider_calls s1.1 ∧
      ∃ s3,
        getOriginalURIPromise s2 = (Ok (always (chain (S k))), s3) ∧
        _originalURIPromise s3.2 = Some (chain (S k)) ∧
        chain (S k) ≠ chain k ∧
        provider_calls s3.1 =
          provider_calls s1.1 ++ [getOriginalResource_call provider (uri c)].
Proof.
  intros Hcache Hprov k.
  eexists (_, _). split.
  { simpl. unfold bind at 1.
    rewrite (getOriginalURIPromise_fresh w c provider) by done.
    unfold bind at 1.
    rewrite (concurrent_calls_cached n _ _ (chain (promises w))) by done.
    done. }
  simpl. split; [done|]. split.
  { unfold provider_calls. simpl. by rewrite filter_provider_calls_snoc. }
  match goal with |- context [resolution _ _ (?w1, ?c1)] =>
    destruct (resolution_settled provider_outcome loader_outcome w1 c1)
      as (r & w2 & c2 & Hres & Hc2 & Huri & _ & _ & Hp2 & Hn2 & _ & _ & Hpc & _)
  end.
  exists r, (w2, c2). split; [done|]. split; [exact Hc2|]. split; [exact Hpc|].
  simpl in Hp2, Hn2, Huri.
  eexists (_, _). split.
  { rewrite (getOriginalURIPromise_fresh w2 c2 provider) by congruence.
    rewrite Hn2. reflexivity. }
  simpl. split; [done|]. split; [intros [=]; lia|].
  rewrite <- Hpc, Huri. unfold provider_calls. simpl.
  by rewrite filter_provider_calls_snoc.
Qed.

Lemma single_flight_witness :
  ∃ s1,
    concurrent_calls 3 session0 =
      (Ok [always (chain 0); chain 0; chain 0], s1) ∧
    _originalURIPromise s1.2 = Some (chain 0).
Proof.
  destruct (single_flight session0.1 session0.2 7 2
              (Failed "no repository") (Failed "")
              eq_refl eq_refl) as (s1 & H1 & H2 & _).
  exists s1. split; [exact H1|exact H2].
Defined.

(** *** A cycle without a baseline *)

Arguments triggerDiff_then : simpl never.

Lemma alive_same w c w' c' :
  model c' = model c → baselineModel c' = baselineModel c →
  textModels w' = textModels w → alive w c ↔ alive w' c'.
Proof.
  intros Hm Hb Ht. unfold alive, disposed. rewrite Hm, Hb, Ht. done.
Qed.

(** An error passes the continuation of [diff] and the completion handler
    by. *)
Lemma completion_failed e service s :
  completion (Failed e) service s = (Ok (Failed e), s).
Proof. done. Qed.

Lemma diff_then_null w c :
  diff_then None (w, c) = (Ok (as_changes []), (w, c)).
Proof. unfold diff_then. unfold_M. by destruct (model c). Qed.

(** With [null] for the resource the diff service is not called and the
    handler gets [[]]. *)
Lemma completion_null service w c :
  (is_Some (model c) → is_Some (decorations c)) →
  ∃ r w' c', completion (Completed None) service (w, c) = (Ok r, (w', c')) ∧
    diff_service_calls w' = diff_service_calls w ∧
    (alive w c →
       r = Completed (Some []) ∧ decorations c' = Some [] ∧
       ∀ m, model c = Some m →
         getAllDecorations (textModels w' (obj m)) =
         base.filter (λ p, p.1 ∉ held c)
           (getAllDecorations (textModels w (obj m)))) ∧
    (¬ alive w c → r = Completed None ∧ (w', c') = (w, c)).
Proof.
  intros Hdec. unfold completion, then_. unfold bind, ret.
  rewrite diff_then_null.
  simp. destruct (decide (alive w c)) as [Ha|Ha].
  - pose proof Ha as (m & b & Hm & Hb & Hdm & Hdb).
    destruct (Hdec (ltac:(rewrite Hm; eauto))) as [old Hold].
    rewrite (triggerDiff_then_applied w c m b old (Some [])) by done.
    replace (if decide (getValueLength (textModels w (obj b)) = 0%Z)
             then [] else default [] (Some [])) with (@nil IChange)
      by (by case_decide).
    simpl. eexists _, _, _. split; [reflexivity|]. simpl.
    split.
    { unfold diff_service_calls. simpl.
      by rewrite filter_app, filter_cons_False, filter_nil, app_nil_r. }
    split; [|done]. intros _. repeat split.
    intros m' Hm'. rewrite Hm in Hm'. injection Hm' as <-.
    rewrite fn_lookup_insert. simpl. rewrite app_nil_r.
    unfold held. by rewrite Hold.
  - rewrite triggerDiff_then_stale by done. simpl.
    eexists _, _, _. split; [reflexivity|]. split; [done|]. split; done.
Qed.

Lemma then_total {S A B} (o : Outcome A) (f : A → M S (Outcome B)) (s : S) :
  ∃ r s', then_ o f s = (Ok r, s').
Proof.
  destruct o as [a|e]; simpl; [|by eexists _, _].
  destruct (f a s) as [[r|e] s']; by eexists _, _.
Qed.

Lemma completion_total resolved service s :
  ∃ r s', completion resolved service s = (Ok r, s').
Proof.
  unfold completion. unfold bind.
  match goal with |- context [then_ resolved ?f s] =>
    destruct (then_total resolved f s) as (r1 & s1 & ->) end.
  apply then_total.
Qed.

(** What [this.diff()] leaves as it was, and which promise it returns. *)
Lemma diff_frame w c :
  consistent c →
  ∃ p w' c', diff (w, c) = (Ok p, (w', c')) ∧
    model c' = model c ∧ baselineModel c' = baselineModel c ∧
    decorations c' = decorations c ∧ textModels w' = textModels w ∧
    decoration_calls w' = decoration_calls w ∧
    diff_service_calls w' = diff_service_calls w ∧
    (no_provider (w, c) → p = as_ None ∧ (w', c') = (w, c)) ∧
    (¬ no_provider (w, c) → ∀ v, p ≠ as_ v).
Proof.
  intros (_ & _ & Hcache). unfold diff, no_provider. simpl.
  destruct (_originalURIPromise c) as [p|] eqn:Hp.
  - rewrite (getOriginalURIPromise_cached w c p) by done.
    eexists _, _, _. split; [reflexivity|]. do 6 (split; [done|]). split.
    + by intros [? _].
    + intros _ v ->. by destruct (Hcache _ eq_refl).
  - destruct (activeProvider w) as [provider|] eqn:Hprov.
    + rewrite (getOriginalURIPromise_fresh w c provider) by done.
      eexists _, _, _. split; [reflexivity|].
      unfold decoration_calls, diff_service_calls. simpl.
      rewrite !filter_app, !filter_cons_False, !filter_nil, !app_nil_r
        by done.
      do 6 (split; [done|]). split; [by intros [_ ?]|done].
    + rewrite (getOriginalURIPromise_no_provider w c) by done.
      eexists _, _, _. split; [reflexivity|]. do 6 (split; [done|]).
      split; [done|]. intros H. by destruct H.
Qed.

(** C5 (amended): when no provider is active or the provider returns
    [null], the cycle is an empty diff: nothing is thrown, the diff service
    is not called, and the completion handler gets the empty change list. If
    the buffer and a baseline buffer loaded earlier are both alive it
    replaces the decorations by the empty set; if not it leaves them as they
    are, and a decorator that never loaded a baseline holds none. When the
    provider or the loading fails, the error passes the continuation of
    [diff] and the completion handler by: the cycle ends in that error, no
    call to the decoration API is made and the decorations stay as they
    were. *)
Theorem no_baseline_cycle w c provider loader service :
  consistent c →
  ∃ r s', diff_cycle provider loader service (w, c) = (Ok r, s') ∧
    (no_provider (w, c) ∨ answers_null provider →
       diff_service_calls s'.1 = diff_service_calls w ∧
       (alive w c →
          r = Completed (Some []) ∧ held s'.2 = [] ∧
          ∀ m, model c = Some m →
            getAllDecorations (textModels s'.1 (obj m)) =
            base.filter (λ p, p.1 ∉ held c)
              (getAllDecorations (textModels w (obj m)))) ∧
       (¬ alive w c →
          r = Completed None ∧ decorations s'.2 = decorations c ∧
          decoration_calls s'.1 = decoration_calls w) ∧
       (baselineModel c = None → held s'.2 = [])) ∧
    (¬ no_provider (w, c) → fails provider loader →
       (∃ e, r = Failed e) ∧ decorations s'.2 = decorations c ∧
       decoration_calls s'.1 = decoration_calls w ∧
       diff_service_calls s'.1 = diff_service_calls w).
Proof.
  intros Hc. pose proof Hc as (Hdec & Hbase & _).
  destruct (diff_frame w c Hc)
    as (p & w1 & c1 & Hdiff & Hm1 & Hb1 & Hd1 & Ht1 & Hdc1 & Hsc1 & Hnone & Hsome).
  unfold diff_cycle. unfold bind at 1. rewrite Hdiff.
  (* what the handler does once the resolution is [null] *)
  assert (∀ w2 c2,
    model c2 = model c → baselineModel c2 = baselineModel c →
    decorations c2 = decorations c → textModels w2 = textModels w →
    decoration_calls w2 = decoration_calls w →
    diff_service_calls w2 = diff_service_calls w →
    ∃ r s', completion (Completed None) service (w2, c2) = (Ok r, s') ∧
      diff_service_calls s'.1 = diff_service_calls w ∧
      (alive w c →
         r = Completed (Some []) ∧ held s'.2 = [] ∧
         ∀ m, model c = Some m →
           getAllDecorations (textModels s'.1 (obj m)) =
           base.filter (λ p, p.1 ∉ held c)
             (getAllDecorations (textModels w (obj m)))) ∧
      (¬ alive w c →
         r = Completed None ∧ decorations s'.2 = decorations c ∧
         decoration_calls s'.1 = decoration_calls w) ∧
      (baselineModel c = None → held s'.2 = [])) as Hnull.
  { intros w2 c2 Hm2 Hb2 Hd2 Ht2 Hdc2 Hsc2.
    destruct (completion_null service w2 c2)
      as (r & w3 & c3 & Hcomp & Hsc3 & Halive & Hstale).
    { by rewrite Hm2, Hd2. }
    exists r, (w3, c3). split; [done|]. simpl.
    split; [congruence|].
    pose proof (alive_same w c w2 c2 Hm2 Hb2 Ht2) as Hiff.
    split; [|split].
    - intros Ha. destruct (Halive (proj1 Hiff Ha)) as (-> & Hd3 & Hall).
      split; [done|]. split; [unfold held; by rewrite Hd3|].
      intros m Hm. rewrite (Hall m) by congruence.
      unfold held. by rewrite Hd2, Ht2.
    - intros Ha. destruct Hstale as [-> [= -> ->]].
      { intros Ha2. by apply Ha, Hiff. }
      done.
    - intros Hb. destruct (decide (alive w c)) as [Ha|Ha].
      + destruct Ha as (? & ? & _ & ? & _). congruence.
      + destruct Hstale as [_ [= _ ->]].
        { intros Ha2. by apply Ha, Hiff. }
        unfold held. rewrite Hd2. by apply Hbase. }
  destruct (decide (no_provider (w, c))) as [Hnp|Hnp].
  - destruct (Hnone Hnp) as [-> [= -> ->]]. unfold bind, ret.
    destruct (Hnull w c) as (r & s' & Hcomp & Hrest); try done.
    exists r, s'. split; [done|]. split; [done|]. done.
  - assert (match p with
            | as_ v => ret (Completed v)
            | _ => resolution provider loader
            end = resolution provider loader) as ->.
    { destruct p; try done. by destruct (Hsome Hnp value). }
    destruct (resolution_settled provider loader w1 c1)
      as (r1 & w2 & c2 & Hres & _ & _ & Hm2 & Hd2 & _ & _ & Ht2 & _ & _
          & Hdc2 & Hsc2 & Hnul & Hfail1 & Hfail2).
    unfold bind. rewrite Hres.
    destruct (completion_total r1 service (w2, c2)) as (r & s' & Hcomp).
    exists r, s'. split; [done|]. split.
    + intros [?| ->]; [done|]. destruct (Hnul eq_refl) as [-> Hb2].
      destruct (Hnull w2 c2) as (r' & s'' & Hcomp' & Hrest); try congruence.
      rewrite Hcomp in Hcomp'. by injection Hcomp' as <- <-.
    + intros _ Hf.
      assert (∃ e, r1 = Failed e) as [e ->].
      { destruct Hf as [[e ->]|(u & e & -> & ->)]; exists e.
        - by destruct (Hfail1 e eq_refl).
        - by destruct (Hfail2 u e eq_refl eq_refl). }
      rewrite completion_failed in Hcomp. injection Hcomp as <- <-.
      simpl. split; [by eexists|]. split; [congruence|]. split; congruence.
Qed.

Lemma no_baseline_cycle_witness :
  ∃ r s',
    diff_cycle (Completed None) (Failed "") (Failed "") session1 = (Ok r, s') ∧
    held s'.2 = [].
Proof.
  destruct (no_baseline_cycle session1.1 session1.2
              (Completed None) (Failed "") (Failed ""))
    as (r & s' & Hcycle & Hnull & _).
  - consistent_by_computation.
  - exists r, s'. split; [exact Hcycle|].
    destruct (Hnull (or_intror eq_refl)) as (_ & Halive & _).
    apply Halive. exists buffer, baseline. repeat split; reflexivity.
Defined.

Lemma session1_reachable : reachable session1.
Proof.
  exists buffer, "file:///a.ts", world0, session0, first_cycle.
  split; reflexivity.
Qed.

(** C5, as stated, fails: after a first cycle has put two decorations on
    the buffer, a cycle in which the provider fails ends with these two
    decorations still held. *)
Lemma failed_resolution_keeps_decorations : ¬ degrades_to_empty.
Proof.
  intros H.
  destruct (H session1 (Failed "provider error") (Failed "") (Failed "")
              session1_reachable) as (r & s' & Hcycle & Hheld).
  { right. right. left. by eexists. }
  assert (held (diff_cycle (Failed "provider error") (Failed "") (Failed "")
                  session1).2.2 = [1; 2]) as Hkept by (vm_compute; reflexivity).
  rewrite Hcycle in Hkept. simpl in Hkept. congruence.
Qed.

(** ** The tracker of visible buffers *)

Lemma constructor_built m u w :
  constructor m u w = (Ok (built m u), w).
Proof. reflexivity. Qed.

Lemma built_consistent m u : consistent (built m u).
Proof. repeat split; simpl; eauto. done. Qed.

Lemma onModelVisible_eq m u wb self :
  DirtyDiffDecorator.onModelVisible m u (wb, self) =
  (Ok tt,
   ({| DirtyDiffDecorator.world := DirtyDiffDecorator.world wb;
       DirtyDiffDecorator.instances :=
         <[fresh (dom (DirtyDiffDecorator.instances wb)) := built m u]>
           (DirtyDiffDecorator.instances wb) |},
    DirtyDiffDecorator.set_decorators
      (<[id m := fresh (dom (DirtyDiffDecorator.instances wb))]>
         (DirtyDiffDecorator.decorators self)) self)).
Proof. reflexivity. Qed.

Lemma set_decorators_id self :
  DirtyDiffDecorator.set_decorators (DirtyDiffDecorator.decorators self) self
  = self.
Proof. by destruct self. Qed.

Lemma set_decorators_twice d d' self :
  DirtyDiffDecorator.set_decorators d
    (DirtyDiffDecorator.set_decorators d' self)
  = DirtyDiffDecorator.set_decorators d self.
Proof. done. Qed.

(** The first loop of [onEditorsChanged]: one new instance per entry. *)
Lemma forEach_onModelVisible (news : list DirtyDiffDecorator.VisibleModel) :
  ∀ wb self,
  NoDup ((λ p, id (DirtyDiffDecorator.model p)) <$> news) →
  ∃ insts decs,
    forEach (λ p, DirtyDiffDecorator.onModelVisible
                    (DirtyDiffDecorator.model p) (DirtyDiffDecorator.uri p))
      news (wb, self) =
    (Ok tt,
     ({| DirtyDiffDecorator.world := DirtyDiffDecorator.world wb;
         DirtyDiffDecorator.instances := insts |},
      DirtyDiffDecorator.set_decorators decs self)) ∧
    (∀ p, p ∈ news →
       ∃ i, decs !! id (DirtyDiffDecorator.model p) = Some i ∧
            DirtyDiffDecorator.instances wb !! i = None ∧
            insts !! i = Some (built (DirtyDiffDecorator.model p)
                                 (DirtyDiffDecorator.uri p))) ∧
    (∀ k, k ∉ ((λ p, id (DirtyDiffDecorator.model p)) <$> news) →
       decs !! k = DirtyDiffDecorator.decorators self !! k) ∧
    (∀ i c, DirtyDiffDecorator.instances wb !! i = Some c →
       insts !! i = Some c) ∧
    (∀ i, DirtyDiffDecorator.instances wb !! i = None → is_Some (insts !! i) →
       ∃ p, p ∈ news ∧ decs !! id (DirtyDiffDecorator.model p) = Some i).
Proof.
  induction news as [|p news IH]; intros wb self Hnd.
  - exists (DirtyDiffDecorator.instances wb), (DirtyDiffDecorator.decorators self).
    simpl. unfold ret. rewrite set_decorators_id.
    split; [by destruct wb|]. split; [by intros ? ?%elem_of_nil|].
    split; [done|]. split; [done|].
    intros i Hi [c Hc]. congruence.
  - rewrite fmap_cons in Hnd. apply NoDup_cons in Hnd as [Hp Hnd].
    set (i0 := fresh (dom (DirtyDiffDecorator.instances wb))).
    assert (DirtyDiffDecorator.instances wb !! i0 = None) as Hfresh.
    { apply not_elem_of_dom. apply is_fresh. }
    simpl. unfold bind. rewrite onModelVisible_eq. fold i0.
    edestruct IH as (insts & decs & Heq & Hnew & Hother & Hold & Honly);
      [exact Hnd|].
    rewrite Heq. simpl. rewrite set_decorators_twice.
    exists insts, decs. split; [done|].
    assert (decs !! id (DirtyDiffDecorator.model p) = Some i0) as Hp0.
    { rewrite Hother by done. simpl. by rewrite lookup_insert_eq. }
    assert (insts !! i0 = Some (built (DirtyDiffDecorator.model p)
                                  (DirtyDiffDecorator.uri p))) as Hi0.
    { apply Hold. simpl. by rewrite lookup_insert_eq. }
    split; [|split; [|split]].
    + intros q [->|Hq]%elem_of_cons; [by exists i0|].
      destruct (Hnew q Hq) as (i & Hd & Hnone & Hsome). simpl in Hnone.
      apply lookup_insert_None in Hnone as [Hnone _]. by exists i.
    + intros k Hk. try rewrite fmap_cons in Hk.
      apply not_elem_of_cons in Hk as [Hne Hk].
      rewrite Hother by done. simpl. by rewrite lookup_insert_ne.
    + intros i c Hi. apply Hold. simpl.
      rewrite lookup_insert_ne; [done|]. intros <-. congruence.
    + intros i Hi Hsome. destruct (decide (i = i0)) as [->|Hne].
      * exists p. split; [by left|done].
      * destruct (Honly i) as (q & Hq & Hdq); [|done|].
        { simpl. by rewrite lookup_insert_ne. }
        exists q. split; [by right|done].
Qed.

Lemma onModelInvisible_eq m wb self i c w1 c1 :
  DirtyDiffDecorator.decorators self !! id m = Some i →
  DirtyDiffDecorator.instances wb !! i = Some c →
  dispose (DirtyDiffDecorator.world wb, c) = (Ok tt, (w1, c1)) →
  DirtyDiffDecorator.onModelInvisible m (wb, self) =
  (Ok tt,
   ({| DirtyDiffDecorator.world := w1;
       DirtyDiffDecorator.instances :=
         <[i := c1]> (DirtyDiffDecorator.instances wb) |},
    DirtyDiffDecorator.set_decorators
      (delete (id m) (DirtyDiffDecorator.decorators self)) self)).
Proof.
  intros Hd Hi Hdisp.
  unfold DirtyDiffDecorator.onModelInvisible, DirtyDiffDecorator.this,
    DirtyDiffDecorator.invoke, DirtyDiffDecorator.assign, bind, modify.
  cbn [fst snd]. rewrite Hd. cbn [fst snd]. rewrite Hi, Hdisp. done.
Qed.

(** Two tracked models that differ have decorators that differ. *)
Lemma decorated_inj wb self m m' i :
  decorated wb self m → decorated wb self m' →
  DirtyDiffDecorator.decorators self !! id m = Some i →
  DirtyDiffDecorator.decorators self !! id m' = Some i →
  m = m'.
Proof.
  intros (i1 & c1 & Hd1 & Hi1 & Hm1 & _) (i2 & c2 & Hd2 & Hi2 & Hm2 & _) H1 H2.
  congruence.
Qed.

(** The second loop of [onEditorsChanged]: every entry has its decorator
    disposed and its key deleted. *)
Lemma forEach_onModelInvisible (olds : list IModel) :
  ∀ wb self,
  NoDup olds → distinct_ids olds →
  (∀ m, m ∈ olds → decorated wb self m) →
  ∃ w insts decs,
    forEach DirtyDiffDecorator.onModelInvisible olds (wb, self) =
    (Ok tt,
     ({| DirtyDiffDecorator.world := w;
         DirtyDiffDecorator.instances := insts |},
      DirtyDiffDecorator.set_decorators decs self)) ∧
    (∀ m, m ∈ olds →
       decs !! id m = None ∧
       ∃ i c c', DirtyDiffDecorator.decorators self !! id m = Some i ∧
                 DirtyDiffDecorator.instances wb !! i = Some c ∧
                 insts !! i = Some c' ∧ is_disposed c' ∧
                 ∃ w1 w2, dispose (w1, c) = (Ok tt, (w2, c'))) ∧
    (∀ k, k ∉ (id <$> olds) →
       decs !! k = DirtyDiffDecorator.decorators self !! k) ∧
    (∀ i, (∀ m, m ∈ olds →
             DirtyDiffDecorator.decorators self !! id m ≠ Some i) →
       insts !! i = DirtyDiffDecorator.instances wb !! i).
Proof.
  induction olds as [|m olds IH]; intros wb self Hnd Hids Hdec.
  - exists (DirtyDiffDecorator.world wb), (DirtyDiffDecorator.instances wb),
      (DirtyDiffDecorator.decorators self).
    simpl. unfold ret. rewrite set_decorators_id.
    split; [by destruct wb|]. split; [by intros ? ?%elem_of_nil|].
    split; done.
  - apply NoDup_cons in Hnd as [Hm Hnd].
    destruct (Hdec m) as (i & c & Hd & Hi & Hmc & Hc); [by left|].
    destruct (dispose_completes (DirtyDiffDecorator.world wb) c Hc)
      as (w1 & c1 & Hdisp & Ht1 & Hm1 & Hb1 & Hd1 & Hdd1 & _).
    simpl. unfold bind.
    rewrite (onModelInvisible_eq m wb self i c w1 c1) by done.
    (* the other entries keep their decorators *)
    assert (∀ m', m' ∈ olds → id m' ≠ id m) as Hne_id.
    { intros m' Hm' Heq. apply Hm.
      rewrite <- (Hids m' m); [done|by right|by left|done]. }
    assert (∀ m' i', m' ∈ olds →
              DirtyDiffDecorator.decorators self !! id m' = Some i' →
              i' ≠ i) as Hne_i.
    { intros m' i' Hm' Hd' ->. apply Hm.
      rewrite (decorated_inj wb self m m' i); [done|..]; try done.
      - apply Hdec. by left.
      - apply Hdec. by right. }
    edestruct (IH {| DirtyDiffDecorator.world := w1;
                     DirtyDiffDecorator.instances :=
                       <[i := c1]> (DirtyDiffDecorator.instances wb) |}
                  (DirtyDiffDecorator.set_decorators
                     (delete (id m) (DirtyDiffDecorator.decorators self)) self)
                  Hnd)
      as (w & insts & decs & Heq & Hgone & Hother & Hrest).
    { intros m1 m2 H1 H2. apply Hids; by right. }
    { intros m' Hm'.
      destruct (Hdec m') as (i' & c' & Hd' & Hi' & Hmc' & Hc'); [by right|].
      exists i', c'. simpl. rewrite lookup_delete_ne by (apply not_eq_sym; auto).
      rewrite lookup_insert_ne by (apply not_eq_sym; eauto). done. }
    rewrite Heq. simpl. rewrite set_decorators_twice.
    exists w, insts, decs. split; [done|]. split; [|split].
    + intros m' [->|Hm']%elem_of_cons.
      * split.
        { rewrite Hother; [simpl; by rewrite lookup_delete_eq|].
          intros (m' & Heq' & Hm')%list_elem_of_fmap.
          by apply (Hne_id m'). }
        exists i, c, c1. split; [done|]. split; [done|]. split.
        { rewrite Hrest; [simpl; by rewrite lookup_insert_eq|].
          intros m' Hm'. simpl.
          rewrite lookup_delete_ne by (apply not_eq_sym; auto).
          intros Hd'. by apply (Hne_i m' i). }
        split; [done|]. by exists (DirtyDiffDecorator.world wb), w1.
      * destruct (Hgone m' Hm') as (Hnone & i' & c' & c'' & Hd' & Hi' & Hrest').
        split; [done|]. simpl in Hd', Hi'.
        rewrite lookup_delete_ne in Hd' by (apply not_eq_sym; auto).
        rewrite lookup_insert_ne in Hi' by (apply not_eq_sym; eauto).
        by exists i', c', c''.
    + intros k Hk. try rewrite fmap_cons in Hk.
      apply not_elem_of_cons in Hk as [Hne Hk].
      rewrite Hother by done. simpl. by rewrite lookup_delete_ne.
    + intros i' Hi'. rewrite Hrest.
      * simpl. rewrite lookup_insert_ne; [done|].
        intros <-. apply (Hi' m); [by left|done].
      * intros m' Hm'. simpl.
        rewrite lookup_delete_ne by (apply not_eq_sym; auto).
        apply Hi'. by right.
Qed.

(** *** The visible models *)

Lemma indexOf_absent {A} `{EqDecision A} (a : list A) (x : A) (from : nat) :
  DirtyDiffDecorator.indexOf a x from = (-1)%Z ↔ x ∉ drop from a.
Proof.
  unfold DirtyDiffDecorator.indexOf.
  destruct (list_find (λ y, y = x) (drop from a)) as [[j y]|] eqn:Hf.
  - apply list_find_Some in Hf as (Hl & -> & _). split; [lia|].
    intros Hx. exfalso. apply Hx. by eapply list_elem_of_lookup_2.
  - apply list_find_None in Hf. split; [|done]. intros _ Hx.
    rewrite Forall_forall in Hf. by apply (Hf x).
Qed.

Lemma filter_from_keep_last (pre l : list (option IModel)) :
  DirtyDiffDecorator.filter_from
    (λ m i, DirtyDiffDecorator.has_uri m &&
            bool_decide (DirtyDiffDecorator.indexOf (pre ++ l) m (i + 1)
                         = (-1)%Z))
    (length pre) l = keep_last l.
Proof.
  revert pre. induction l as [|x l IH]; intros pre; [done|]. simpl.
  assert (bool_decide
            (DirtyDiffDecorator.indexOf (pre ++ x :: l) x (length pre + 1)
             = (-1)%Z) = bool_decide (x ∉ l)) as ->.
  { apply bool_decide_ext. rewrite indexOf_absent.
    rewrite (cons_middle x pre l), app_assoc.
    rewrite drop_app_length'; [done|]. rewrite length_app. simpl. lia. }
  specialize (IH (pre ++ [x])). rewrite <- app_assoc in IH. simpl in IH.
  rewrite length_app in IH. simpl in IH.
  replace (length pre + 1) with (S (length pre)) in IH by lia.
  by rewrite IH.
Qed.

Lemma array_filter_keep_last (ms : list (option IModel)) :
  DirtyDiffDecorator.array_filter
    (λ m i a, DirtyDiffDecorator.has_uri m &&
              bool_decide (DirtyDiffDecorator.indexOf a m (i + 1) = (-1)%Z))
    ms = keep_last ms.
Proof. exact (filter_from_keep_last [] ms). Qed.

Lemma keep_last_elem_of l x :
  x ∈ keep_last l ↔ x ∈ l ∧ DirtyDiffDecorator.has_uri x = true.
Proof.
  induction l as [|y l IH]; simpl.
  - split; [by intros ?%elem_of_nil|by intros [?%elem_of_nil _]].
  - destruct (DirtyDiffDecorator.has_uri y) eqn:Hy; simpl.
    + case_bool_decide as Hin; simpl.
      * rewrite !elem_of_cons, IH. split.
        { intros [->|[? ?]]; [split; [by left|done]|split; [by right|done]]. }
        { intros [[->|?] ?]; [by left|by right]. }
      * rewrite elem_of_cons, IH. split.
        { intros [? ?]. split; [by right|done]. }
        { intros [[->|?] ?]; done. }
    + rewrite elem_of_cons, IH. split.
      { intros [? ?]. split; [by right|done]. }
      { intros [[->|?] ?]; [congruence|done]. }
Qed.

Lemma keep_last_NoDup l : NoDup (keep_last l).
Proof.
  induction l as [|y l IH]; simpl; [constructor|].
  destruct (DirtyDiffDecorator.has_uri y); simpl; [|done].
  case_bool_decide as Hin; simpl; [|done].
  constructor; [|done]. rewrite keep_last_elem_of. by intros [? _].
Qed.

Lemma visibleModels_eq editors :
  (λ p, Some (DirtyDiffDecorator.model p))
    <$> DirtyDiffDecorator.visibleModels editors =
  keep_last (DirtyDiffDecorator.getModel
               <$> base.filter (λ c, DirtyDiffDecorator.isCodeEditor c = true)
                     (DirtyDiffDecorator.getControl <$> editors)).
Proof.
  unfold DirtyDiffDecorator.visibleModels. cbv zeta.
  rewrite array_filter_keep_last.
  match goal with |- context [keep_last ?ms] =>
    pose proof (λ x, proj1 (keep_last_elem_of ms x)) as Hin;
    induction (keep_last ms) as [|x l IH] end; [done|].
  destruct (Hin x) as [_ Hx]; [by left|].
  destruct x as [m|]; [|done]. simpl in Hx. apply bool_decide_eq_true in Hx.
  destruct Hx as [u Hu]. simpl. rewrite Hu. simpl. f_equal.
  apply IH. intros y Hy. apply Hin. by right.
Qed.

Lemma visibleModels_NoDup editors :
  NoDup (DirtyDiffDecorator.model <$> DirtyDiffDecorator.visibleModels editors).
Proof.
  apply (NoDup_fmap_1 Some). rewrite <- list_fmap_compose.
  change (Some ∘ DirtyDiffDecorator.model)
    with (λ p, Some (DirtyDiffDecorator.model p)).
  rewrite visibleModels_eq. apply keep_last_NoDup.
Qed.

Lemma visibleModels_uri editors p :
  p ∈ DirtyDiffDecorator.visibleModels editors →
  common.uri (DirtyDiffDecorator.model p) = Some (DirtyDiffDecorator.uri p).
Proof.
  unfold DirtyDiffDecorator.visibleModels. cbv zeta.
  intros (x & _ & Hx)%list_elem_of_omap.
  destruct x as [m|]; [|done]. simpl in Hx.
  destruct (common.uri m) as [u|] eqn:Hu; [|done]. by injection Hx as <-.
Qed.

(** The visible models are the models of the code editors that have a
    uri. *)
Lemma visibleModels_elem_of editors m :
  m ∈ DirtyDiffDecorator.model <$> DirtyDiffDecorator.visibleModels editors ↔
  is_Some (common.uri m) ∧
  ∃ e, e ∈ editors ∧
       DirtyDiffDecorator.getControl e = DirtyDiffDecorator.CodeEditor (Some m).
Proof.
  rewrite <- (list_elem_of_fmap_inj Some), <- list_fmap_compose.
  change (Some ∘ DirtyDiffDecorator.model)
    with (λ p, Some (DirtyDiffDecorator.model p)).
  rewrite visibleModels_eq, keep_last_elem_of. simpl.
  rewrite bool_decide_eq_true, list_elem_of_fmap.
  split.
  - intros [(c & Hc & [Hcode (e & -> & He)%list_elem_of_fmap]%list_elem_of_filter) Hu].
    split; [done|]. exists e. split; [done|].
    destruct (DirtyDiffDecorator.getControl e); [|done]. simpl in Hc. congruence.
  - intros [Hu (e & He & Hc)]. split; [|done].
    exists (DirtyDiffDecorator.CodeEditor (Some m)). split; [done|].
    apply list_elem_of_filter. split; [done|].
    apply list_elem_of_fmap. by exists e.
Qed.

(** *** One notification *)

(** C7: on a notification the tracker builds a decorator for each model
    that is visible now and was not before, disposes and removes the
    decorator of each model that was visible and is not any more, and leaves
    the decorator of a model that stays visible as it is: the same instance,
    in the same state. No other instance is made or changed. For the visible
    sets {A, B} and then {B, C} this is: a new decorator for C, the one of A
    disposed and removed, the one of B untouched. *)
Theorem visibility_churn editors wb self :
  let previous := DirtyDiffDecorator.models self in
  let current :=
    DirtyDiffDecorator.model <$> DirtyDiffDecorator.visibleModels editors in
  tracking wb self →
  distinct_ids (previous ++ current) →
  ∃ wb' self',
    DirtyDiffDecorator.onEditorsChanged editors (wb, self)
      = (Ok tt, (wb', self')) ∧
    DirtyDiffDecorator.models self' = current ∧
    (* newly visible *)
    (∀ m, m ∈ current → m ∉ previous →
       ∃ i u, common.uri m = Some u ∧
         DirtyDiffDecorator.decorators self' !! id m = Some i ∧
         DirtyDiffDecorator.instances wb !! i = None ∧
         DirtyDiffDecorator.instances wb' !! i = Some (built m u)) ∧
    (* newly hidden *)
    (∀ m, m ∈ previous → m ∉ current →
       DirtyDiffDecorator.decorators self' !! id m = None ∧
       ∃ i c c',
         DirtyDiffDecorator.decorators self !! id m = Some i ∧
         DirtyDiffDecorator.instances wb !! i = Some c ∧
         DirtyDiffDecorator.instances wb' !! i = Some c' ∧
         is_disposed c' ∧
         ∃ w1 w2, dispose (w1, c) = (Ok tt, (w2, c'))) ∧
    (* still visible *)
    (∀ m, m ∈ previous → m ∈ current →
       ∃ i c,
         DirtyDiffDecorator.decorators self !! id m = Some i ∧
         DirtyDiffDecorator.decorators self' !! id m = Some i ∧
         DirtyDiffDecorator.instances wb !! i = Some c ∧
         DirtyDiffDecorator.instances wb' !! i = Some c) ∧
    (* nothing else *)
    (∀ i, (DirtyDiffDecorator.instances wb' !! i)
          ≠ (DirtyDiffDecorator.instances wb !! i) →
       ∃ m, (m ∈ current ∧ (m ∉ previous) ∧
             DirtyDiffDecorator.decorators self' !! id m = Some i) ∨
            (m ∈ previous ∧ (m ∉ current) ∧
             DirtyDiffDecorator.decorators self !! id m = Some i)) ∧
    tracking wb' self'.
Proof.
  intros previous current [Hnd Hdec] Hids.
  unfold DirtyDiffDecorator.onEditorsChanged. cbv zeta.
  unfold bind at 1. unfold DirtyDiffDecorator.this at 1. cbn [fst snd].
  fold previous.
  set (visible := DirtyDiffDecorator.visibleModels editors) in *.
  set (news := base.filter
                 (λ p, Forall (λ m, DirtyDiffDecorator.model p ≠ m) previous)
                 visible).
  set (olds := base.filter
                 (λ m, Forall (λ p, DirtyDiffDecorator.model p ≠ m) visible)
                 previous).
  pose proof (visibleModels_NoDup editors) as Hcur. fold visible current in Hcur.
  (* membership in the two filtered lists *)
  assert (∀ p, p ∈ news ↔
            p ∈ visible ∧ DirtyDiffDecorator.model p ∉ previous) as Hnews.
  { intros p. unfold news. rewrite list_elem_of_filter, Forall_forall.
    split.
    - intros [H1 H2]. split; [done|]. intros Hin. by apply (H1 _ Hin).
    - intros [H1 H2]. split; [|done]. intros m Hm Heq. apply H2.
      by rewrite Heq. }
  assert (∀ m, m ∈ olds ↔ m ∈ previous ∧ m ∉ current) as Holds.
  { intros m. unfold olds. rewrite list_elem_of_filter, Forall_forall.
    split.
    - intros [H1 H2]. split; [done|].
      intros (p & -> & Hp)%list_elem_of_fmap. by apply (H1 p).
    - intros [H1 H2]. split; [|done].
      intros p Hp Heq. apply H2. apply list_elem_of_fmap. by exists p. }
  assert (∀ p, p ∈ visible → DirtyDiffDecorator.model p ∈ current) as Hvis.
  { intros p Hp. apply list_elem_of_fmap. by exists p. }
  (* ids tell the models of both lists apart *)
  assert (∀ m m', m ∈ previous ∨ m ∈ current → m' ∈ previous ∨ m' ∈ current →
            id m = id m' → m = m') as Hid.
  { intros m m' Hm Hm'. apply Hids; by apply elem_of_app. }
  (* first loop *)
  destruct (forEach_onModelVisible news wb self)
    as (insts1 & decs1 & Heq1 & Hnew1 & Hother1 & Hold1 & Honly1).
  { rewrite (list_fmap_compose DirtyDiffDecorator.model id).
    apply NoDup_fmap_2_strong.
    - intros m m' (p & -> & Hp)%list_elem_of_fmap
        (p' & -> & Hp')%list_elem_of_fmap.
      apply Hid; right; apply Hvis; apply Hnews; done.
    - assert (DirtyDiffDecorator.model <$> news `sublist_of` current) as Hsub
        by (apply fmap_sublist; unfold news; apply sublist_filter).
      by eapply sublist_NoDup. }
  unfold bind at 1. rewrite Heq1.
  assert (∀ m, m ∈ previous → decs1 !! id m
            = DirtyDiffDecorator.decorators self !! id m) as Hprev1.
  { intros m Hm. apply Hother1.
    intros (p & Heq & Hp)%list_elem_of_fmap. apply Hnews in Hp as [Hp Hnp].
    apply Hnp. rewrite <- (Hid m (DirtyDiffDecorator.model p)); auto. }
  (* second loop *)
  destruct (forEach_onModelInvisible olds
              {| DirtyDiffDecorator.world := DirtyDiffDecorator.world wb;
                 DirtyDiffDecorator.instances := insts1 |}
              (DirtyDiffDecorator.set_decorators decs1 self))
    as (w2 & insts2 & decs2 & Heq2 & Hgone2 & Hother2 & Hrest2).
  { unfold olds. by apply NoDup_filter. }
  { intros m m' Hm%Holds Hm'%Holds. apply Hid; left; tauto. }
  { intros m [Hm _]%Holds.
    destruct (Hdec m Hm) as (i & c & Hd & Hi & Hmc & Hc).
    exists i, c. simpl. rewrite Hprev1 by done. auto. }
  unfold bind at 1. rewrite Heq2. simpl in Hgone2, Hother2, Hrest2.
  unfold DirtyDiffDecorator.assign, modify. cbn [fst snd].
  eexists _, _. split; [reflexivity|]. simpl.
  (* a decorator of a model that stays or comes is not one the second loop
     disposes *)
  assert (∀ m, m ∈ current → decs2 !! id m = decs1 !! id m) as Hcur2.
  { intros m Hm. apply Hother2.
    intros (m' & Heq & [Hm' Hnc]%Holds)%list_elem_of_fmap.
    apply Hnc. rewrite <- (Hid m m'); auto. }
  assert (∀ i, (∀ m c, m ∈ olds →
                  DirtyDiffDecorator.decorators self !! id m = Some i →
                  DirtyDiffDecorator.instances wb !! i = Some c → False) →
            insts2 !! i = insts1 !! i) as Hkeep2.
  { intros i Hi. apply Hrest2. intros m Hm Hd.
    pose proof Hm as [Hmp _]%Holds. rewrite Hprev1 in Hd by done.
    destruct (Hdec m Hmp) as (i' & c & Hd' & Hi' & _). 
    apply (Hi m c); [done|done|congruence]. }
  split; [done|]. split; [|split; [|split; [|split]]].
  - (* newly visible *)
    intros m (p & -> & Hp)%list_elem_of_fmap Hnp.
    destruct (Hnew1 p) as (i & Hd & Hnone & Hsome); [by apply Hnews|].
    exists i, (DirtyDiffDecorator.uri p).
    split; [by apply (visibleModels_uri editors)|].
    split; [rewrite Hcur2; auto|]. split; [done|].
    rewrite Hkeep2; [done|]. intros m c _ _ Hc. congruence.
  - (* newly hidden *)
    intros m Hm Hnc.
    destruct (Hgone2 m) as (Hnone & i & c & c' & Hd & Hi & Hi' & Hdisp);
      [by apply Holds|].
    split; [done|]. rewrite Hprev1 in Hd by done.
    destruct (Hdec m Hm) as (i0 & c0 & Hd0 & Hi0 & _).
    assert (i0 = i) as -> by congruence.
    rewrite (Hold1 i c0 Hi0) in Hi. injection Hi as ->.
    by exists i, c, c'.
  - (* still visible *)
    intros m Hm Hc.
    destruct (Hdec m Hm) as (i & c & Hd & Hi & Hmc & Hcons).
    exists i, c. split; [done|].
    split; [rewrite Hcur2, Hprev1; done|]. split; [done|].
    rewrite Hkeep2; [by apply Hold1|].
    intros m' c' [Hm' Hnc']%Holds Hd' _.
    apply Hnc'. rewrite <- (decorated_inj wb self m m' i); auto.
  - (* nothing else *)
    intros i Hi.
    destruct (decide (Exists (λ m, DirtyDiffDecorator.decorators self !! id m
                                   = Some i) olds)) as [Hex|Hnex].
    + apply Exists_exists in Hex as (m & [Hm Hnc]%Holds & Hd).
      exists m. by right.
    + rewrite <- Forall_Exists_neg, Forall_forall in Hnex.
      rewrite Hkeep2 in Hi by (intros m c Hm Hd _; by apply (Hnex m)).
      destruct (DirtyDiffDecorator.instances wb !! i) as [c|] eqn:Hwb.
      { by rewrite (Hold1 i c Hwb) in Hi. }
      destruct (Honly1 i Hwb) as (p & [Hp Hnp]%Hnews & Hd).
      { by destruct (insts1 !! i); [eexists|]. }
      exists (DirtyDiffDecorator.model p). left.
      split; [by apply Hvis|]. split; [done|]. rewrite Hcur2; auto.
  - (* the tracker is ready for the next notification *)
    split; [done|]. simpl. intros m Hm. unfold decorated. simpl.
    destruct (decide (m ∈ previous)) as [Hp|Hnp].
    + destruct (Hdec m Hp) as (i & c & Hd & Hi & Hmc & Hcons).
      exists i, c. split; [rewrite Hcur2, Hprev1; done|].
      split; [|done]. rewrite Hkeep2; [by apply Hold1|].
      intros m' c' [Hm' Hnc']%Holds Hd' _.
      apply Hnc'. rewrite <- (decorated_inj wb self m m' i); auto.
    + apply list_elem_of_fmap in Hm as (p & -> & Hp).
      destruct (Hnew1 p) as (i & Hd & Hnone & Hsome); [by apply Hnews|].
      exists i, (built (DirtyDiffDecorator.model p) (DirtyDiffDecorator.uri p)).
      split; [rewrite Hcur2; auto|].
      split; [|split; [done|apply built_consistent]].
      rewrite Hkeep2; [done|]. intros m c _ _ Hc. congruence.
Qed.

Lemma distinct_ids_Forall (l : list IModel) :
  Forall (λ m, Forall (λ m', id m = id m' → m = m') l) l → distinct_ids l.
Proof.
  rewrite Forall_forall. intros H m m' Hm Hm'. specialize (H m Hm).
  rewrite Forall_forall in H. by apply H.
Qed.

Lemma shown_AB_tracking : tracking shown_AB.1 shown_AB.2.
Proof.
  split; [by apply (bool_decide_unpack _); vm_compute|].
  intros m Hm.
  change (m ∈ [model_A; model_B]) in Hm.
  apply elem_of_cons in Hm as [->|Hm];
    [|apply elem_of_cons in Hm as [->|Hm]; [|by apply elem_of_nil in Hm]].
  - exists 0, (built model_A "file:///A").
    split; [by vm_compute|]. split; [by vm_compute|].
    split; [done|apply built_consistent].
  - exists 1, (built model_B "file:///B").
    split; [by vm_compute|]. split; [by vm_compute|].
    split; [done|apply built_consistent].
Qed.

Lemma visibility_churn_witness :
  ∃ wb' self',
    DirtyDiffDecorator.onEditorsChanged editors_BC shown_AB
      = (Ok tt, (wb', self')) ∧
    DirtyDiffDecorator.models self' = [model_C; model_B] ∧
    DirtyDiffDecorator.decorators self' !! id model_A = None ∧
    (∃ i c,
       DirtyDiffDecorator.decorators shown_AB.2 !! id model_B = Some i ∧
       DirtyDiffDecorator.decorators self' !! id model_B = Some i ∧
       DirtyDiffDecorator.instances shown_AB.1 !! i = Some c ∧
       DirtyDiffDecorator.instances wb' !! i = Some c) ∧
    (∃ i u, common.uri model_C = Some u ∧
       DirtyDiffDecorator.decorators self' !! id model_C = Some i ∧
       DirtyDiffDecorator.instances shown_AB.1 !! i = None ∧
       DirtyDiffDecorator.instances wb' !! i = Some (built model_C u)).
Proof.
  destruct (visibility_churn editors_BC shown_AB.1 shown_AB.2)
    as (wb' & self' & Heq & Hmodels & Hnew & Hgone & Hkept & _).
  - exact shown_AB_tracking.
  - apply distinct_ids_Forall. by apply (bool_decide_unpack _); vm_compute.
  - exists wb', self'. split; [exact Heq|]. split; [exact Hmodels|].
    split; [|split].
    + apply (Hgone model_A); by apply (bool_decide_unpack _); vm_compute.
    + apply (Hkept model_B); by apply (bool_decide_unpack _); vm_compute.
    + apply (Hnew model_C); by apply (bool_decide_unpack _); vm_compute.
Defined.

(** * More about the code

    ** The mapper *)

(** X1: with [hidden = false] every decoration starts on the modified start
    line of its change, at column 1, and ends at column 1: the start lines
    of the output are the modified start lines of the input, in order. *)
Theorem changesToDecorations_start_lines (diff : list IChange) :
  (λ d, startLineNumber (range d)) <$> changesToDecorations diff false
    = modifiedStartLineNumber <$> diff ∧
  Forall (λ d, startColumn (range d) = 1%Z ∧ endColumn (range d) = 1%Z)
    (changesToDecorations diff false).
Proof.
  unfold changesToDecorations. split.
  - rewrite <- list_fmap_compose. apply list_fmap_ext. intros _ change _.
    simpl. unfold changeToDecoration. by repeat case_decide.
  - apply Forall_fmap, Forall_forall. intros change _. simpl.
    unfold changeToDecoration. by repeat case_decide.
Qed.

(** X2: with [hidden = false], changes whose modified range is not inverted
    give decorations whose line range is not inverted (the end line is the
    start line when the modified end line is the sentinel 0). *)
Theorem changesToDecorations_ranges_ordered (diff : list IChange) :
  Forall well_formed diff →
  Forall (λ d, (startLineNumber (range d) ≤ endLineNumber (range d))%Z)
    (changesToDecorations diff false).
Proof.
  intros Hwf. unfold changesToDecorations. apply Forall_fmap.
  eapply Forall_impl; [exact Hwf|]. intros change [Hz|Hle]; simpl;
    unfold changeToDecoration, js_or; repeat case_decide; simpl; lia.
Qed.

Lemma changesToDecorations_ranges_ordered_witness :
  Forall (λ d, (startLineNumber (range d) ≤ endLineNumber (range d))%Z)
    (changesToDecorations two_changes false).
Proof.
  apply changesToDecorations_ranges_ordered.
  constructor; [right; simpl; lia|].
  constructor; [left; reflexivity|]. constructor.
Defined.

(** ** The decorator of one buffer *)



(** X4: when the diff service fails for a live buffer, one call to it was
    made, the completion handler does not run and the decorator is left as
    it was: the decorations of the earlier cycle stay. *)
Theorem diff_service_failure w c m original e :
  model c = Some m → disposed w m = false →
  completion (Completed (Some original)) (Failed e) (w, c) =
  (Ok (Failed e),
   (log (computeDirtyDiff_call original (common.uri m) true) w, c)).
Proof.
  intros Hm Hdm. unfold completion, then_, diff_then. unfold_M.
  rewrite Hm. simp. by rewrite Hdm.
Qed.

Lemma diff_service_failure_witness :
  held (completion (Completed (Some "git:/a.ts")) (Failed "worker died")
          session1).2.2 = [1; 2].
Proof.
  change session1 with (session1.1, session1.2).
  rewrite (diff_service_failure session1.1 session1.2 buffer
             "git:/a.ts" "worker died" eq_refl eq_refl).
  reflexivity.
Defined.



Lemma lifecycle_dispose_eq (ds : list IDisposable) (w : World) :
  lifecycle_dispose ds w =
  (Ok [], {| textModels := textModels w; activeProvider := activeProvider w;
             showChangesInGutter := showChangesInGutter w;
             promises := promises w;
             calls := calls w ++ (dispose_call <$> ds) |}).
Proof. unfold lifecycle_dispose, bind. by rewrite forEach_log. Qed.

(** X6: [dispose()] releases every handle of [toDispose] once, in the order
    they were pushed, and only then clears the decorations it holds on the
    buffer, with one call, if the buffer is alive; it makes no other call,
    and the decorations of the buffer it did not hold stay. *)
Theorem dispose_releases w c :
  consistent c →
  ∃ w1 c1,
    dispose (w, c) = (Ok tt, (w1, c1)) ∧
    toDispose c1 = [] ∧
    calls w1 = calls w ++ (dispose_call <$> toDispose c) ++
      match model c with
      | Some m => if disposed w m then []
                  else [deltaDecorations_call m (decorations c) []]
      | None => []
      end ∧
    ∀ m, model c = Some m →
      getAllDecorations (textModels w1 (obj m)) =
      if disposed w m then getAllDecorations (textModels w (obj m))
      else base.filter (λ p, p.1 ∉ held c)
             (getAllDecorations (textModels w (obj m))).
Proof.
  intros [Hdec _]. unfold dispose. unfold_M.
  rewrite lifecycle_dispose_eq. simp.
  destruct (model c) as [m|] eqn:Hm; simp.
  - destruct (Hdec (ltac:(eauto))) as [old Hold].
    unfold disposed. simpl.
    destruct (isDisposed (textModels w (obj m))) eqn:Hdm; simp.
    + destruct (diffDelayer c); simp; eexists _, _;
        (split; [reflexivity|]); simpl; rewrite ?app_nil_r;
        (split; [done|]); (split; [done|]); intros ? [= <-]; by rewrite Hdm.
    + unfold deltaDecorations. unfold_M. rewrite Hdm, Hold. simp.
      destruct (diffDelayer c); simp; eexists _, _;
        (split; [reflexivity|]); simpl; rewrite <- ?app_assoc;
        (split; [done|]); (split; [done|]); intros ? [= <-];
        rewrite Hdm, fn_lookup_insert; simpl; rewrite app_nil_r;
        unfold held; by rewrite Hold.
  - destruct (diffDelayer c); simp; eexists _, _;
      (split; [reflexivity|]); simpl; rewrite ?app_nil_r;
      (split; [done|]); (split; [done|]); by intros ? [=].
Qed.

Lemma dispose_releases_witness :
  ∃ s1, dispose session1 = (Ok tt, s1) ∧
    released s1.1 =
      [onDidChangeContent buffer; onDidChangeProvider;
       reference {| textEditorModel := baseline |};
       onDidChangeContent baseline].
Proof.
  destruct (dispose_releases session1.1 session1.2)
    as (w1 & c1 & Heq & _ & Hcalls & _).
  - consistent_by_computation.
  - exists (w1, c1). split; [exact Heq|].
    unfold released. simpl. rewrite Hcalls. reflexivity.
Defined.

(** X7: a model reference that arrives after [dispose()] is still taken: it
    becomes the baseline and its two handles are pushed on [toDispose],
    without any call; they are released by the next [dispose()], and by
    nothing before it. *)
Theorem late_reference_is_kept w c original ref :
  consistent c →
  let s1 := exec dispose (w, c) in
  let s2 := exec (createModelReference_then original ref) s1 in
  baselineModel s2.2 = Some (textEditorModel ref) ∧
  toDispose s2.2 = [reference ref; onDidChangeContent (textEditorModel ref)] ∧
  s2.1 = s1.1 ∧
  ∃ s3, dispose s2 = (Ok tt, s3) ∧
    toDispose s3.2 = [] ∧
    calls s3.1 = calls s1.1 ++
      [dispose_call (reference ref);
       dispose_call (onDidChangeContent (textEditorModel ref))].
Proof.
  intros Hc s1 s2.
  destruct (dispose_completes w c Hc)
    as (w1 & c1 & Hd & Ht & Hm & Hb & Hdc & Hdd & _).
  assert (s1 = (w1, c1)) as Hs1 by (unfold s1, exec; by rewrite Hd).
  subst s2. rewrite Hs1. unfold createModelReference_then. unfold_M.
  rewrite Ht. simpl. repeat split.
  unfold dispose. unfold_M. rewrite Hm. simp. rewrite Hdd. simp.
  eexists (_, _). split; [reflexivity|]. simpl.
  by rewrite <- app_assoc.
Qed.

Lemma late_reference_is_kept_witness :
  toDispose
    (exec (createModelReference_then "git:/a.ts"
             {| textEditorModel := baseline |})
       (exec dispose session0)).2 =
  [reference {| textEditorModel := baseline |}; onDidChangeContent baseline].
Proof.
  apply (late_reference_is_kept session0.1 session0.2 "git:/a.ts"
           {| textEditorModel := baseline |}).
  consistent_by_computation.
Defined.



Lemma released_log c w :
  released (log c w) =
  released w ++ match c with dispose_call d => [d] | _ => [] end.
Proof.
  unfold released. simpl. rewrite omap_app. simpl. by destruct c.
Qed.

Lemma triggerDiff_then_keeps_handles diff w c :
  toDispose (triggerDiff_then diff (w, c)).2.2 = toDispose c ∧
  released (triggerDiff_then diff (w, c)).2.1 = released w.
Proof.
  unfold triggerDiff_then, deltaDecorations. unfold_M.
  destruct (model c) as [m|]; simp; [|done].
  destruct (baselineModel c) as [b|]; simp; [|done].
  destruct (disposed w m || disposed w b); simp; [done|].
  destruct (isDisposed (textModels w (obj m))); simp.
  { split; [done|]. unfold released. simpl. rewrite omap_app. simpl.
    by rewrite app_nil_r. }
  destruct (decorations c); simp; split; try done;
    unfold released; simpl; rewrite omap_app; simpl; by rewrite app_nil_r.
Qed.

(** X9: nothing but [dispose()] releases a handle: through any events other
    than a call of [dispose()], the handles released so far stay the same
    and [toDispose] only grows. In particular the reference of an earlier
    baseline is kept when a later resolution loads another one. *)
Theorem handles_kept_until_dispose (events : list Event) s :
  Forall (λ e, e ≠ disposes) events →
  released (after events s).1 = released s.1 ∧
  ∃ more, toDispose (after events s).2 = toDispose s.2 ++ more.
Proof.
  intros Hev. revert s.
  induction Hev as [|e events He _ IH]; intros s.
  { split; [done|]. exists []. by rewrite app_nil_r. }
  simpl.
  assert (released (step e s).1 = released s.1 ∧
          ∃ more, toDispose (step e s).2 = toDispose s.2 ++ more) as [Hr [more1 Ht]].
  { destruct s as [w c].
    destruct e as [| |originalURI|changes|originalUri|originalUri ref| | | | | |];
      unfold step, exec; try done.
    - unfold triggerDiff. unfold_M.
      destruct (diffDelayer c); simp; (split; [done|]);
        exists []; by rewrite app_nil_r.
    - simp. destruct (diffDelayer c) as [d|]; simp;
        [|split; [done|]; exists []; by rewrite app_nil_r].
      destruct (scheduled d); simp;
        [|split; [done|]; exists []; by rewrite app_nil_r].
      unfold diff, getOriginalURIPromise. unfold_M.
      destruct (_originalURIPromise c); simp;
        [split; [done|]; exists []; by rewrite app_nil_r|].
      destruct (activeProvider w); simp;
        [|split; [done|]; exists []; by rewrite app_nil_r].
      split; [|exists []; by rewrite app_nil_r].
      unfold released. simpl. rewrite omap_app. simpl. by rewrite app_nil_r.
    - unfold diff_then. unfold_M.
      destruct (model c) as [m|]; simp;
        [|split; [done|]; exists []; by rewrite app_nil_r].
      destruct originalURI; simp;
        [|split; [done|]; exists []; by rewrite app_nil_r].
      destruct (disposed w m); simp;
        [split; [done|]; exists []; by rewrite app_nil_r|].
      split; [|exists []; by rewrite app_nil_r].
      unfold released. simpl. rewrite omap_app. simpl. by rewrite app_nil_r.
    - destruct (triggerDiff_then_keeps_handles changes w c) as [H1 H2].
      split; [done|]. exists []. by rewrite app_nil_r.
    - unfold getOriginalResource_then. unfold_M.
      destruct originalUri; simp;
        [|split; [done|]; exists []; by rewrite app_nil_r].
      split; [|exists []; by rewrite app_nil_r].
      unfold released. simpl. rewrite omap_app. simpl. by rewrite app_nil_r.
    - unfold createModelReference_then. unfold_M. split; [done|].
      eexists. by rewrite <- app_assoc.
    - unfold always_callback. unfold_M. split; [done|].
      exists []. by rewrite app_nil_r.
    - simpl. split; [done|]. exists []. by rewrite app_nil_r.
    - simpl. split; [done|]. exists []. by rewrite app_nil_r.
    - simpl. split; [done|]. exists []. by rewrite app_nil_r.
    - simpl. split; [done|]. exists []. by rewrite app_nil_r. }
  destruct (IH (step e s)) as [Hr2 [more2 Ht2]].
  split; [congruence|]. exists (more1 ++ more2).
  by rewrite Ht2, Ht, <- app_assoc.
Qed.

Lemma handles_kept_until_dispose_witness :
  released session1.1 = [] ∧
  ∃ more, toDispose session1.2 = toDispose session0.2 ++ more.
Proof.
  apply (handles_kept_until_dispose first_cycle session0).
  repeat constructor; discriminate.
Defined.

(** X10: every call a decorator ever makes to the diff service, from its
    construction on and whatever happens, compares some original with the
    uri of the buffer it was built for, with [ignoreTrimWhitespace = true];
    every call it makes to the decoration API is on that buffer. *)
Theorem calls_are_about_the_buffer model0 uri0 w0 s0 (events : list Event) :
  constructed model0 uri0 w0 s0 →
  ∃ made, calls (after events s0).1 = calls w0 ++ made ∧
    (∀ original modified flag,
       computeDirtyDiff_call original modified flag ∈ made →
       modified = common.uri model0 ∧ flag = true) ∧
    (∀ m old new, deltaDecorations_call m old new ∈ made → m = model0).
Proof.
  intros Hcons.
  assert (calls s0.1 = calls w0 ∧ model s0.2 = Some model0) as [Hc0 Hm0].
  { revert Hcons. unfold constructed. rewrite constructor_built.
    by intros [= <- <-]. }
  rewrite <- Hc0. clear Hcons Hc0.
  assert (model s0.2 = None ∨ model s0.2 = Some model0) as Hm by by right.
  clear Hm0. revert s0 Hm.
  induction events as [|e events IH]; intros s Hm.
  { exists []. rewrite app_nil_r. split; [done|].
    split; intros; by apply elem_of_nil in H. }
  simpl.
  assert ((model (step e s).2 = None ∨ model (step e s).2 = Some model0) ∧
          ∃ made, calls (step e s).1 = calls s.1 ++ made ∧
            (∀ original modified flag,
               computeDirtyDiff_call original modified flag ∈ made →
               modified = common.uri model0 ∧ flag = true) ∧
            (∀ m old new, deltaDecorations_call m old new ∈ made →
               m = model0)) as [Hm' (made1 & Hcalls1 & Hd1 & Hdd1)].
  { destruct s as [w c]. simpl in Hm.
    assert (∀ P : list Call → Prop, P [] → ∃ made, calls w = calls w ++ made ∧ P made)
      as Hnone by (intros P HP; exists []; by rewrite app_nil_r).
    destruct e as [| |originalURI|changes|originalUri|originalUri ref| | | | | |];
      unfold step, exec.
    - unfold triggerDiff. unfold_M.
      destruct (diffDelayer c); simp; (split; [done|]); apply Hnone;
        split; intros; by apply elem_of_nil in H.
    - simp. destruct (diffDelayer c) as [d|]; simp;
        [|split; [done|]; apply Hnone; split; intros; by apply elem_of_nil in H].
      destruct (scheduled d); simp;
        [|split; [done|]; apply Hnone; split; intros; by apply elem_of_nil in H].
      unfold diff, getOriginalURIPromise. unfold_M.
      destruct (_originalURIPromise c); simp;
        [split; [done|]; apply Hnone; split; intros; by apply elem_of_nil in H|].
      destruct (activeProvider w); simp;
        [|split; [done|]; apply Hnone; split; intros; by apply elem_of_nil in H].
      split; [done|]. eexists. split; [reflexivity|].
      split; intros; apply list_elem_of_singleton in H; discriminate.
    - unfold diff_then. unfold_M.
      destruct (model c) as [m|] eqn:Hmc; simp;
        [|split; [by rewrite Hmc|]; apply Hnone; split; intros;
          by apply elem_of_nil in H].
      destruct originalURI; simp;
        [|split; [by rewrite Hmc|]; apply Hnone; split; intros;
          by apply elem_of_nil in H].
      destruct (disposed w m); simp;
        [split; [by rewrite Hmc|]; apply Hnone; split; intros;
          by apply elem_of_nil in H|].
      split; [by rewrite Hmc|]. eexists. split; [reflexivity|].
      split; intros; apply list_elem_of_singleton in H; [|discriminate].
      injection H as -> -> ->. destruct Hm as [|[= ->]]; done.
    - unfold triggerDiff_then, deltaDecorations. unfold_M.
      destruct (model c) as [m|] eqn:Hmc; simp;
        [|split; [by rewrite Hmc|]; apply Hnone; split; intros;
          by apply elem_of_nil in H].
      assert (m = model0) as -> by (destruct Hm as [|[= ->]]; done).
      destruct (baselineModel c) as [b|]; simp;
        [|split; [by rewrite Hmc|]; apply Hnone; split; intros;
          by apply elem_of_nil in H].
      destruct (disposed w model0 || disposed w b); simp;
        [split; [by rewrite Hmc|]; apply Hnone; split; intros;
          by apply elem_of_nil in H|].
      destruct (isDisposed (textModels w (obj model0))); simp.
      { split; [by rewrite Hmc|]. eexists. split; [reflexivity|].
        split; intros; apply list_elem_of_singleton in H;
          [discriminate|by injection H as -> _ _]. }
      destruct (decorations c); simp;
        (split; [by rewrite ?Hmc|]); (eexists; split; [reflexivity|]);
        split; intros; apply list_elem_of_singleton in H;
          try discriminate; by injection H as -> _ _.
    - unfold getOriginalResource_then. unfold_M.
      destruct originalUri; simp;
        [|split; [done|]; apply Hnone; split; intros; by apply elem_of_nil in H].
      split; [done|]. eexists. split; [reflexivity|].
      split; intros; apply list_elem_of_singleton in H; discriminate.
    - unfold createModelReference_then. unfold_M. split; [done|].
      apply Hnone; split; intros; by apply elem_of_nil in H.
    - unfold always_callback. unfold_M. split; [done|].
      apply Hnone; split; intros; by apply elem_of_nil in H.
    - unfold dispose. unfold_M. rewrite lifecycle_dispose_eq. simp.
      unfold deltaDecorations. unfold_M.
      destruct (model c) as [m|] eqn:Hmc; simp.
      + assert (m = model0) as -> by (destruct Hm as [|[= ->]]; done).
        unfold disposed. simpl.
        destruct (isDisposed (textModels w (obj model0))) eqn:Hdm; simp.
        * split; [destruct (diffDelayer c); simp; by left|].
          exists (dispose_call <$> toDispose c).
          split; [by destruct (diffDelayer c)|].
          split; intros ? ? ? (? & ? & _)%list_elem_of_fmap; discriminate.
        * destruct (decorations c) as [old|] eqn:Hold; rewrite ?Hdm; simp.
          -- split; [destruct (diffDelayer c); simp; by left|].
             exists ((dispose_call <$> toDispose c)
                       ++ [deltaDecorations_call model0 (Some old) []]).
             split; [destruct (diffDelayer c); simp; by rewrite <- app_assoc|].
             split; intros ? ? ? [(? & ? & _)%list_elem_of_fmap
                                 |[=]%list_elem_of_singleton]%elem_of_app;
               try discriminate; done.
          -- split; [right; by rewrite Hmc|].
             exists ((dispose_call <$> toDispose c)
                       ++ [deltaDecorations_call model0 None []]).
             split; [by rewrite <- app_assoc|].
             split; intros ? ? ? [(? & ? & _)%list_elem_of_fmap
                                 |[=]%list_elem_of_singleton]%elem_of_app;
               try discriminate; done.
      + split; [destruct (diffDelayer c); simp; by left|].
        exists (dispose_call <$> toDispose c).
        split; [by destruct (diffDelayer c)|].
        split; intros ? ? ? (? & ? & _)%list_elem_of_fmap; discriminate.
    - simpl. split; [done|]. apply Hnone; split; intros; by apply elem_of_nil in H.
    - simpl. split; [done|]. apply Hnone; split; intros; by apply elem_of_nil in H.
    - simpl. split; [done|]. apply Hnone; split; intros; by apply elem_of_nil in H.
    - simpl. split; [done|]. apply Hnone; split; intros; by apply elem_of_nil in H. }
  destruct (IH (step e s) Hm') as (made2 & Hcalls2 & Hd2 & Hdd2).
  exists (made1 ++ made2). split; [by rewrite Hcalls2, Hcalls1, <- app_assoc|].
  split.
  - intros ? ? ? [?|?]%elem_of_app; eauto.
  - intros ? ? ? [?|?]%elem_of_app; eauto.
Qed.

Lemma calls_are_about_the_buffer_witness :
  ∃ made, calls session1.1 = calls world0 ++ made.
Proof.
  destruct (calls_are_about_the_buffer buffer "file:///a.ts" world0 session0
              first_cycle eq_refl) as (made & Hcalls & _).
  exists made. exact Hcalls.
Defined.

Lemma step_in_use_or_disposed_of e w c :
  consistent c → in_use c ∨ disposed_of c →
  in_use (step e (w, c)).2 ∨ disposed_of (step e (w, c)).2.
Proof.
  intros Hc Hio.
  destruct e as [| |originalURI|changes|originalUri|originalUri ref| | | | | |];
    unfold step, exec; try done.
  - unfold triggerDiff. unfold_M.
    destruct (diffDelayer c) eqn:Hdd; simp; [|done].
    destruct Hio as [(? & ? & ?)|(? & ? & ?)]; [|congruence].
    left. repeat split; simpl; eauto.
  - simp. destruct (diffDelayer c) as [d|] eqn:Hdd; simp; [|done].
    destruct (scheduled d); simp; [|done].
    assert (in_use (set_diffDelayer (Some (start d)) c)) as Hin.
    { destruct Hio as [(? & ? & ?)|(? & ? & ?)]; [|congruence].
      repeat split; simpl; eauto. }
    unfold diff, getOriginalURIPromise. unfold_M.
    destruct (_originalURIPromise c); simp; [by left|].
    destruct (activeProvider w); simp; by left.
  - unfold diff_then. unfold_M. destruct (model c) as [m|] eqn:Hm; simp;
      [|done].
    destruct originalURI; simp; [|done]. by destruct (disposed w m).
  - destruct (decide (alive w c)) as [Ha|Ha].
    + destruct Ha as (m & b & Hm & Hb & Hdm & Hdb).
      destruct Hc as (Hdec & _).
      destruct (Hdec (ltac:(rewrite Hm; eauto))) as [old Hold].
      rewrite (triggerDiff_then_applied w c m b old changes) by done.
      simp. destruct Hio as [(? & ? & ?)|(? & ? & ?)]; [|congruence].
      left. repeat split; simpl; eauto.
    + by rewrite triggerDiff_then_stale.
  - unfold getOriginalResource_then. unfold_M. by destruct originalUri.
  - destruct (dispose_completes w c Hc)
      as (w1 & c1 & Hd & Ht & Hm & Hb & Hdc & Hdd & _).
    rewrite Hd. by right.
Qed.

(** X11: what holds of a decorator from its construction on, whatever
    happens: it is either in use, with buffer reference, id list and delayer
    all there, or disposed of, with all three [null]; as long as no baseline
    was loaded it holds no decoration; and the cached promise, if any, is
    one made from an answer of a provider. *)
Theorem invariants_from_construction s :
  reachable s →
  (in_use s.2 ∨ disposed_of s.2) ∧
  (baselineModel s.2 = None → held s.2 = []) ∧
  (∀ p, _originalURIPromise s.2 = Some p → ∃ n, p = chain n).
Proof.
  intros Hr. split; [|by destruct (reachable_consistent s Hr) as (_ & ? & ?)].
  destruct Hr as (model0 & uri0 & w & s0 & events & Hcons & ->).
  pose proof (constructor_consistent _ _ _ _ Hcons) as Hc0.
  assert (in_use s0.2 ∨ disposed_of s0.2) as Hio0.
  { revert Hcons. unfold constructed. rewrite constructor_built.
    intros [= <- _]. left. repeat split; simpl; eauto. }
  clear Hcons. revert s0 Hc0 Hio0.
  induction events as [|e events IH]; intros [w1 c1] Hc Hio; [done|].
  simpl. apply IH.
  - apply step_consistent, Hc.
  - by apply step_in_use_or_disposed_of.
Qed.

Lemma invariants_from_construction_witness :
  in_use session1.2 ∨ disposed_of session1.2.
Proof.
  apply (invariants_from_construction session1).
  exists buffer, "file:///a.ts", world0, session0, first_cycle.
  split; reflexivity.
Defined.

(** X17: as long as no provider is active and nothing is in flight,
    [getOriginalURIPromise] answers [null] at once, however often it is
    called: nobody is asked and nothing is cached. So the first call after
    a provider has become active asks that provider. *)
Theorem provider_picked_up_later w c (n : nat) provider :
  _originalURIPromise c = None → activeProvider w = None →
  concurrent_calls n (w, c) = (Ok (replicate n (as_ None)), (w, c)) ∧
  ∃ s', getOriginalURIPromise (step (provider_changes (Some provider)) (w, c))
        = (Ok (always (chain (promises w))), s') ∧
        calls s'.1 = calls w ++ [getOriginalResource_call provider (uri c)] ∧
        _originalURIPromise s'.2 = Some (chain (promises w)).
Proof.
  intros Hcache Hnone. split.
  - induction n as [|n IH]; [done|].
    simpl. unfold bind at 1.
    rewrite (getOriginalURIPromise_no_provider w c) by done.
    unfold bind at 1. by rewrite IH.
  - simpl.
    rewrite (getOriginalURIPromise_fresh (set_activeProvider (Some provider) w)
               c provider) by done.
    by eexists (_, _).
Qed.

Lemma provider_picked_up_later_witness :
  concurrent_calls 2 (step (provider_changes None) session0)
  = (Ok [as_ None; as_ None], step (provider_changes None) session0).
Proof.
  apply (provider_picked_up_later
           (step (provider_changes None) session0).1
           (step (provider_changes None) session0).2 2 7); reflexivity.
Defined.

(** ** The tracker *)

(** X12: the models [onEditorsChanged] takes as visible are the models of
    the code editors among the visible editors that have a uri, each of them
    once, however many editors show it, and each with its own uri as the uri
    handed to the decorator. *)
Theorem visible_models (editors : list DirtyDiffDecorator.IEditor) :
  NoDup (DirtyDiffDecorator.model
           <$> DirtyDiffDecorator.visibleModels editors) ∧
  (∀ m, m ∈ DirtyDiffDecorator.model
              <$> DirtyDiffDecorator.visibleModels editors ↔
        is_Some (common.uri m) ∧
        ∃ e, e ∈ editors ∧
             DirtyDiffDecorator.getControl e
             = DirtyDiffDecorator.CodeEditor (Some m)) ∧
  (∀ p, p ∈ DirtyDiffDecorator.visibleModels editors →
        common.uri (DirtyDiffDecorator.model p)
        = Some (DirtyDiffDecorator.uri p)).
Proof.
  split; [apply visibleModels_NoDup|].
  split; [apply visibleModels_elem_of|apply visibleModels_uri].
Qed.

Lemma filter_none {A} (P : A → Prop) `{∀ x, Decision (P x)} (l : list A) :
  (∀ x, x ∈ l → ¬ P x) → base.filter P l = [].
Proof.
  induction l as [|x l IH]; intros Hl; [done|].
  rewrite filter_cons_False by (apply Hl; by left).
  apply IH. intros y Hy. apply Hl. by right.
Qed.

(** X13: a notification that finds the visible models it already tracks
    builds nothing, disposes nothing and leaves the tracker and the world as
    they are. *)
Theorem repeated_notification editors wb self :
  DirtyDiffDecorator.models self
    = DirtyDiffDecorator.model <$> DirtyDiffDecorator.visibleModels editors →
  DirtyDiffDecorator.onEditorsChanged editors (wb, self) = (Ok tt, (wb, self)).
Proof.
  intros Hsame. unfold DirtyDiffDecorator.onEditorsChanged. cbv zeta.
  unfold bind at 1. unfold DirtyDiffDecorator.this at 1. cbn [fst snd].
  rewrite (filter_none _ (DirtyDiffDecorator.visibleModels editors)).
  2: { intros p Hp HF. rewrite Forall_forall in HF.
       apply (HF (DirtyDiffDecorator.model p)); [|done].
       rewrite Hsame. apply list_elem_of_fmap. by exists p. }
  rewrite (filter_none _ (DirtyDiffDecorator.models self)).
  2: { intros m Hm HF. rewrite Forall_forall in HF.
       rewrite Hsame in Hm. apply list_elem_of_fmap in Hm as (p & -> & Hp).
       by apply (HF p). }
  simpl. unfold bind, ret, DirtyDiffDecorator.assign, modify. simpl.
  rewrite <- Hsame. by destruct self.
Qed.

Lemma repeated_notification_witness :
  DirtyDiffDecorator.onEditorsChanged editors_BC shown_BC = (Ok tt, shown_BC).
Proof.
  change shown_BC with (shown_BC.1, shown_BC.2) at 1 2.
  apply (repeated_notification editors_BC shown_BC.1 shown_BC.2).
  by vm_compute.
Defined.

(** X14: the registry holds no stale entry. If, before a notification, the
    keys of [decorators] are the ids of the tracked models, then after it
    they are the ids of the visible models: an entry is added for each model
    that came, deleted for each model that went, and no key is left over. *)
Theorem registry_keys editors wb self :
  let previous := DirtyDiffDecorator.models self in
  let current :=
    DirtyDiffDecorator.model <$> DirtyDiffDecorator.visibleModels editors in
  tracking wb self →
  distinct_ids (previous ++ current) →
  dom (DirtyDiffDecorator.decorators self)
    =@{gset string} list_to_set (id <$> previous) →
  ∃ wb' self',
    DirtyDiffDecorator.onEditorsChanged editors (wb, self)
      = (Ok tt, (wb', self')) ∧
    dom (DirtyDiffDecorator.decorators self')
      =@{gset string} list_to_set (id <$> current).
Proof.
  intros previous current [Hnd Hdec] Hids Hdom.
  unfold DirtyDiffDecorator.onEditorsChanged. cbv zeta.
  unfold bind at 1. unfold DirtyDiffDecorator.this at 1. cbn [fst snd].
  fold previous.
  set (visible := DirtyDiffDecorator.visibleModels editors) in *.
  set (news := base.filter
                 (λ p, Forall (λ m, DirtyDiffDecorator.model p ≠ m) previous)
                 visible).
  set (olds := base.filter
                 (λ m, Forall (λ p, DirtyDiffDecorator.model p ≠ m) visible)
                 previous).
  pose proof (visibleModels_NoDup editors) as Hcur. fold visible current in Hcur.
  assert (∀ p, p ∈ news ↔
            p ∈ visible ∧ DirtyDiffDecorator.model p ∉ previous) as Hnews.
  { intros p. unfold news. rewrite list_elem_of_filter, Forall_forall.
    split.
    - intros [H1 H2]. split; [done|]. intros Hin. by apply (H1 _ Hin).
    - intros [H1 H2]. split; [|done]. intros m Hm Heq. apply H2.
      by rewrite Heq. }
  assert (∀ m, m ∈ olds ↔ m ∈ previous ∧ m ∉ current) as Holds.
  { intros m. unfold olds. rewrite list_elem_of_filter, Forall_forall.
    split.
    - intros [H1 H2]. split; [done|].
      intros (p & -> & Hp)%list_elem_of_fmap. by apply (H1 p).
    - intros [H1 H2]. split; [|done].
      intros p Hp Heq. apply H2. apply list_elem_of_fmap. by exists p. }
  assert (∀ p, p ∈ visible → DirtyDiffDecorator.model p ∈ current) as Hvis.
  { intros p Hp. apply list_elem_of_fmap. by exists p. }
  assert (∀ m m', m ∈ previous ∨ m ∈ current → m' ∈ previous ∨ m' ∈ current →
            id m = id m' → m = m') as Hid.
  { intros m m' Hm Hm'. apply Hids; by apply elem_of_app. }
  destruct (forEach_onModelVisible news wb self)
    as (insts1 & decs1 & Heq1 & Hnew1 & Hother1 & Hold1 & _).
  { rewrite (list_fmap_compose DirtyDiffDecorator.model id).
    apply NoDup_fmap_2_strong.
    - intros m m' (p & -> & Hp)%list_elem_of_fmap
        (p' & -> & Hp')%list_elem_of_fmap.
      apply Hid; right; apply Hvis; apply Hnews; done.
    - assert (DirtyDiffDecorator.model <$> news `sublist_of` current) as Hsub
        by (apply fmap_sublist; unfold news; apply sublist_filter).
      by eapply sublist_NoDup. }
  unfold bind at 1. rewrite Heq1.
  assert (∀ m, m ∈ previous → decs1 !! id m
            = DirtyDiffDecorator.decorators self !! id m) as Hprev1.
  { intros m Hm. apply Hother1.
    intros (p & Heq & Hp)%list_elem_of_fmap. apply Hnews in Hp as [Hp Hnp].
    apply Hnp. rewrite <- (Hid m (DirtyDiffDecorator.model p)); auto. }
  destruct (forEach_onModelInvisible olds
              {| DirtyDiffDecorator.world := DirtyDiffDecorator.world wb;
                 DirtyDiffDecorator.instances := insts1 |}
              (DirtyDiffDecorator.set_decorators decs1 self))
    as (w2 & insts2 & decs2 & Heq2 & Hgone2 & Hother2 & _).
  { unfold olds. by apply NoDup_filter. }
  { intros m m' Hm%Holds Hm'%Holds. apply Hid; left; tauto. }
  { intros m [Hm _]%Holds.
    destruct (Hdec m Hm) as (i & c & Hd & Hi & Hmc & Hc).
    exists i, c. simpl. rewrite Hprev1 by done. auto. }
  unfold bind at 1. rewrite Heq2. simpl in Hgone2, Hother2.
  unfold DirtyDiffDecorator.assign, modify. cbn [fst snd].
  eexists _, _. split; [reflexivity|]. simpl.
  apply set_eq. intros k.
  rewrite elem_of_dom, elem_of_list_to_set, list_elem_of_fmap.
  assert (∀ x, x ∈ previous → is_Some (DirtyDiffDecorator.decorators self !! id x))
    as Hsome.
  { intros x Hx. destruct (Hdec x Hx) as (i & c & -> & _). by eexists. }
  split.
  - intros Hk.
    destruct (decide (k ∈ id <$> olds)) as [Ho|Ho].
    { apply list_elem_of_fmap in Ho as (m & -> & Hm).
      destruct (Hgone2 m Hm) as [Hnone _]. rewrite Hnone in Hk.
      by destruct Hk. }
    rewrite Hother2 in Hk by done.
    destruct (decide (k ∈ (λ p, id (DirtyDiffDecorator.model p)) <$> news))
      as [Hn|Hn].
    { apply list_elem_of_fmap in Hn as (p & -> & [Hp _]%Hnews).
      exists (DirtyDiffDecorator.model p). split; [done|by apply Hvis]. }
    rewrite Hother1 in Hk by done.
    apply elem_of_dom in Hk. rewrite Hdom in Hk.
    apply elem_of_list_to_set, list_elem_of_fmap in Hk as (m & -> & Hm).
    exists m. split; [done|].
    destruct (decide (m ∈ current)) as [|Hnc]; [done|].
    destruct Ho. apply list_elem_of_fmap. exists m. split; [done|].
    by apply Holds.
  - intros (m & -> & Hm).
    assert (id m ∉ id <$> olds) as Ho.
    { intros (m' & Heq & [Hm' Hnc]%Holds)%list_elem_of_fmap.
      apply Hnc. rewrite <- (Hid m m'); auto. }
    rewrite Hother2 by done.
    destruct (decide (m ∈ previous)) as [Hp|Hnp].
    + rewrite Hprev1 by done. by apply Hsome.
    + apply list_elem_of_fmap in Hm as (p & -> & Hp).
      destruct (Hnew1 p) as (i & -> & _); [by apply Hnews|]. by eexists.
Qed.

Lemma registry_keys_witness :
  ∃ wb' self',
    DirtyDiffDecorator.onEditorsChanged editors_BC shown_AB
      = (Ok tt, (wb', self')) ∧
    dom (DirtyDiffDecorator.decorators self')
      =@{gset string} {[ "$model13"; "$model12" ]}.
Proof.
  destruct (registry_keys editors_BC shown_AB.1 shown_AB.2)
    as (wb' & self' & Heq & Hdom).
  - exact shown_AB_tracking.
  - apply distinct_ids_Forall. by apply (bool_decide_unpack _); vm_compute.
  - by apply (bool_decide_unpack _); vm_compute.
  - exists wb', self'. split; [exact Heq|]. rewrite Hdom.
    by apply (bool_decide_unpack _); vm_compute.
Defined.

Lemma dispose_decorator_eq m wb self i c w1 c1 :
  DirtyDiffDecorator.decorators self !! id m = Some i →
  DirtyDiffDecorator.instances wb !! i = Some c →
  dispose (DirtyDiffDecorator.world wb, c) = (Ok tt, (w1, c1)) →
  DirtyDiffDecoratorLife.dispose_decorator m (wb, self) =
  (Ok tt,
   ({| DirtyDiffDecorator.world := w1;
       DirtyDiffDecorator.instances :=
         <[i := c1]> (DirtyDiffDecorator.instances wb) |}, self)).
Proof.
  intros Hd Hi Hdisp.
  unfold DirtyDiffDecoratorLife.dispose_decorator, DirtyDiffDecorator.this,
    DirtyDiffDecorator.invoke, bind.
  cbn [fst snd]. rewrite Hd. cbn [fst snd]. by rewrite Hi, Hdisp.
Qed.

(** The loop of [dispose]: every model has its decorator disposed; the
    registry is not touched. *)
Lemma forEach_dispose_decorator (ms : list IModel) :
  ∀ wb self,
  NoDup ms → (∀ m, m ∈ ms → decorated wb self m) →
  ∃ w insts,
    forEach DirtyDiffDecoratorLife.dispose_decorator ms (wb, self) =
    (Ok tt,
     ({| DirtyDiffDecorator.world := w;
         DirtyDiffDecorator.instances := insts |}, self)) ∧
    (∀ m, m ∈ ms →
       ∃ i c c', DirtyDiffDecorator.decorators self !! id m = Some i ∧
                 DirtyDiffDecorator.instances wb !! i = Some c ∧
                 insts !! i = Some c' ∧ is_disposed c') ∧
    (∀ i, (∀ m, m ∈ ms →
             DirtyDiffDecorator.decorators self !! id m ≠ Some i) →
       insts !! i = DirtyDiffDecorator.instances wb !! i).
Proof.
  induction ms as [|m ms IH]; intros wb self Hnd Hdec.
  - exists (DirtyDiffDecorator.world wb), (DirtyDiffDecorator.instances wb).
    simpl. unfold ret. split; [by destruct wb|].
    split; [by intros ? ?%elem_of_nil|done].
  - apply NoDup_cons in Hnd as [Hm Hnd].
    destruct (Hdec m) as (i & c & Hd & Hi & Hmc & Hc); [by left|].
    destruct (dispose_completes (DirtyDiffDecorator.world wb) c Hc)
      as (w1 & c1 & Hdisp & Ht1 & Hm1 & Hb1 & Hd1 & Hdd1 & _).
    simpl. unfold bind.
    rewrite (dispose_decorator_eq m wb self i c w1 c1) by done.
    assert (∀ m' i', m' ∈ ms →
              DirtyDiffDecorator.decorators self !! id m' = Some i' →
              i' ≠ i) as Hne_i.
    { intros m' i' Hm' Hd' ->. apply Hm.
      rewrite (decorated_inj wb self m m' i); [done|..]; try done.
      - apply Hdec. by left.
      - apply Hdec. by right. }
    edestruct (IH {| DirtyDiffDecorator.world := w1;
                     DirtyDiffDecorator.instances :=
                       <[i := c1]> (DirtyDiffDecorator.instances wb) |}
                  self Hnd)
      as (w & insts & Heq & Hgone & Hrest).
    { intros m' Hm'.
      destruct (Hdec m') as (i' & c' & Hd' & Hi' & Hmc' & Hc'); [by right|].
      exists i', c'. simpl.
      rewrite lookup_insert_ne by (apply not_eq_sym; eauto). done. }
    rewrite Heq. exists w, insts. split; [done|]. split.
    + intros m' [->|Hm']%elem_of_cons.
      * exists i, c, c1. split; [done|]. split; [done|]. split; [|done].
        rewrite Hrest; [simpl; by rewrite lookup_insert_eq|].
        intros m' Hm' Hd'. by apply (Hne_i m' i).
      * destruct (Hgone m' Hm') as (i' & c' & c'' & Hd' & Hi' & Hrest').
        simpl in Hi'.
        rewrite lookup_insert_ne in Hi' by (apply not_eq_sym; eauto).
        by exists i', c', c''.
    + intros i' Hi'. rewrite Hrest.
      * simpl. rewrite lookup_insert_ne; [done|].
        intros <-. apply (Hi' m); [by left|done].
      * intros m' Hm'. apply Hi'. by right.
Qed.

(** X15: [dispose()] of a tracker that tracks its models disposes the
    decorator of every tracked model, touches no other instance, and sets
    [models] and [decorators] to [null]. It is not to be called twice: on
    the tracker it leaves, a second [dispose()] throws at
    [this.models.forEach], and a notification of the editors throws as
    well; neither changes an instance. *)
Theorem tracker_dispose wb self :
  tracking wb self →
  ∃ wb',
    DirtyDiffDecoratorLife.dispose (wb, DirtyDiffDecoratorLife.in_use self)
      = (Ok tt, (wb', DirtyDiffDecoratorLife.nulled [])) ∧
    (∀ m, m ∈ DirtyDiffDecorator.models self →
       ∃ i c c', DirtyDiffDecorator.decorators self !! id m = Some i ∧
                 DirtyDiffDecorator.instances wb !! i = Some c ∧
                 DirtyDiffDecorator.instances wb' !! i = Some c' ∧
                 is_disposed c') ∧
    (∀ i, (∀ m, m ∈ DirtyDiffDecorator.models self →
             DirtyDiffDecorator.decorators self !! id m ≠ Some i) →
       DirtyDiffDecorator.instances wb' !! i
       = DirtyDiffDecorator.instances wb !! i) ∧
    (∃ e, DirtyDiffDecoratorLife.dispose
            (wb', DirtyDiffDecoratorLife.nulled [])
          = (Throw e, (wb', DirtyDiffDecoratorLife.nulled []))) ∧
    (∀ editors, ∃ e,
       DirtyDiffDecoratorLife.onEditorsChanged editors
         (wb', DirtyDiffDecoratorLife.nulled [])
       = (Throw e, (wb', DirtyDiffDecoratorLife.nulled []))).
Proof.
  intros [Hnd Hdec].
  unfold DirtyDiffDecoratorLife.dispose at 1. cbn [fst snd].
  rewrite lifecycle_dispose_eq. simpl.
  match goal with
  | |- context [forEach _ _ ({| DirtyDiffDecorator.world := ?w1;
                                DirtyDiffDecorator.instances := _ |}, _)] =>
      destruct (forEach_dispose_decorator (DirtyDiffDecorator.models self)
                  {| DirtyDiffDecorator.world := w1;
                     DirtyDiffDecorator.instances :=
                       DirtyDiffDecorator.instances wb |}
                  (DirtyDiffDecoratorLife.set_toDispose [] self) Hnd)
        as (w & insts & Heq & Hgone & Hrest)
  end.
  { intros m Hm. destruct (Hdec m Hm) as (i & c & ? & ? & ? & ?).
    by exists i, c. }
  simpl in Heq. simpl. rewrite Heq. simpl.
  eexists. split; [reflexivity|]. simpl.
  split; [exact Hgone|]. split; [exact Hrest|]. split.
  - unfold DirtyDiffDecoratorLife.dispose. cbn [fst snd].
    rewrite lifecycle_dispose_eq. simpl. rewrite app_nil_r.
    eexists. by destruct w.
  - intros editors. unfold DirtyDiffDecoratorLife.onEditorsChanged.
    simpl. by eexists.
Qed.

Lemma tracker_dispose_witness :
  ∃ wb',
    DirtyDiffDecoratorLife.dispose
      (shown_BC.1, DirtyDiffDecoratorLife.in_use shown_BC.2)
      = (Ok tt, (wb', DirtyDiffDecoratorLife.nulled [])).
Proof.
  destruct (tracker_dispose shown_BC.1 shown_BC.2) as (wb' & Heq & _).
  - split; [by apply (bool_decide_unpack _); vm_compute|].
    intros m Hm. change (m ∈ [model_C; model_B]) in Hm.
    apply elem_of_cons in Hm as [->|Hm];
      [|apply elem_of_cons in Hm as [->|Hm]; [|by apply elem_of_nil in Hm]].
    + exists 2, (built model_C "file:///C").
      split; [by vm_compute|]. split; [by vm_compute|].
      split; [done|apply built_consistent].
    + exists 1, (built model_B "file:///B").
      split; [by vm_compute|]. split; [by vm_compute|].
      split; [done|apply built_consistent].
  - exists wb'. exact Heq.
Defined.

(** ** The theming participant *)

(** X16: for every theme, the participant leaves the rules collected before
    it in place and adds, in this order, the rule of the modified glyph, of
    the added glyph and of the deleted glyph, each only if the theme has its
    colour, and then always the rule of the hidden glyph. Each of these
    rules names the class of the decoration options of its kind, and the
    rule of the hidden glyph says [display: none]. *)
Theorem theming_rules (theme : theming.ITheme) (collector : list string) :
  theming.participant theme collector =
    collector
    ++ omap (λ r, r)
         [theming.modified_rule
            <$> theme theming.editorGutterModifiedBackground;
          theming.added_rule <$> theme theming.editorGutterAddedBackground;
          theming.deleted_rule
            <$> theme theming.editorGutterDeletedBackground]
    ++ [theming.hidden_rule] ∧
  (∀ color,
     is_Some (index 0
                (theming.linesDecorationsClassName MODIFIED_DECORATION_OPTIONS)
                (theming.modified_rule color)) ∧
     is_Some (index 0
                (theming.linesDecorationsClassName ADDED_DECORATION_OPTIONS)
                (theming.added_rule color)) ∧
     is_Some (index 0
                (theming.linesDecorationsClassName DELETED_DECORATION_OPTIONS)
                (theming.deleted_rule color))) ∧
  is_Some (index 0
             (theming.linesDecorationsClassName HIDDEN_DECORATION_OPTIONS)
             theming.hidden_rule) ∧
  is_Some (index 0 "display: none;" theming.hidden_rule).
Proof.
  split.
  - unfold theming.participant, theming.addRule.
    destruct (theme theming.editorGutterModifiedBackground),
      (theme theming.editorGutterAddedBackground),
      (theme theming.editorGutterDeletedBackground); simpl;
      by rewrite <- ?app_assoc.
  - split; [|split; vm_compute; by eexists].
    intros color. repeat split; vm_compute; by eexists.
Qed.
